(** * NodeResourceTopologyMatch: the NUMA zone ledger and the plugin constructor

    A shallow embedding of [pkg/noderesourcetopology/plugin.go]:

    - [subtractFromNUMAs], the zone subtraction loop.  Go maps are reference
      objects, so the resource lists live in a heap of map objects and a
      [NUMANode] holds a reference into it.  A panic (index out of range) is
      an explicit outcome, and the heap reached at the panic is kept.  A
      second rendering of the loops keeps the two slices in memory as well,
      to show that a call leaves them alone.
    - [leastNUMAscoreHandlers], the least-NUMA score dispatch table.
    - [New], the plugin constructor, over the collaborators it calls. *)

From stdpp Require Import gmap strings list fin_maps.
From Stdlib Require Import ZArith Lia.

Local Open Scope Z_scope.

(** ** Quantities and resource lists *)

Abbreviation ResourceName := string.

(** Modelled from the spec: [resource.Quantity] is declared in
    k8s.io/apimachinery, outside this repository.  The spec describes a
    non-negative, arbitrary-precision amount with exact subtraction and
    comparison.  It is carried here as an exact integer number of base units,
    by value.  That an amount is non-negative is not built into the type: it
    is stated where it is needed ([nonneg_map], [nonneg_zones]), so that
    keeping it is a theorem about the code. *)
Abbreviation Quantity := Z.

(** [resource.Quantity{}], the zero value. *)
Definition zeroQuantity : Quantity := 0.

(** [q.IsZero()] *)
Definition IsZero (q : Quantity) : bool := q =? 0.

(** [q.Cmp(y)]: 0 when equal, 1 when [q] is larger, -1 when smaller. *)
Definition Cmp (q y : Quantity) : Z :=
  match q ?= y with
  | Eq => 0
  | Gt => 1
  | Lt => -1
  end.

(** [q.Sub(y)], as the new value of [q]. *)
Definition Sub (q y : Quantity) : Quantity := q - y.

(** [v1.ResourceList], a Go map from resource name to quantity. *)
Abbreviation ResourceList := (gmap ResourceName Quantity).

(** ** The heap of map objects *)

(** A Go map value is a reference to a map object. *)
Abbreviation mapref := nat.

(** The map objects that exist.  A reference with no object behind it stands
    for the nil map: every read of it misses. *)
Abbreviation heap := (gmap mapref ResourceList).

(** The contents behind a reference. *)
Definition load (h : heap) (r : mapref) : ResourceList := default ∅ (h !! r).

(** [m[resName]] with the "comma ok" form. *)
Definition entry (h : heap) (r : mapref) (resName : ResourceName) : option Quantity :=
  load h r !! resName.

(** [m[resName] = q], in place. *)
Definition store (h : heap) (r : mapref) (resName : ResourceName) (q : Quantity) : heap :=
  <[r := <[resName := q]> (load h r)]> h.

(** ** Zones *)

Record NUMANode := mkNUMANode {
  NUMAID : Z;
  Resources : mapref
}.

Abbreviation NUMANodeList := (list NUMANode).

(** [numaNodes[node]]: [None] is the index-out-of-range panic. *)
Definition index (numaNodes : NUMANodeList) (node : Z) : option NUMANode :=
  if (0 <=? node) && (node <? Z.of_nat (length numaNodes))
  then numaNodes !! Z.to_nat node
  else None.

(** ** subtractFromNUMAs *)

(** The inner loop, [for _, node := range nodes], for one resource name.
    [quantity] is the loop's local copy of the requested amount.  The result
    is the final heap together with the final value of [quantity], or [None]
    in place of the latter when the loop panicked. *)
Fixpoint range_nodes (resName : ResourceName) (numaNodes : NUMANodeList)
    (nodes : list Z) (quantity : Quantity) (h : heap) : option Quantity * heap :=
  match nodes with
  | [] => (Some quantity, h)
  | node :: rest =>
      if IsZero quantity then (Some quantity, h)
      else
        match index numaNodes node with
        | None => (None, h)
        | Some zone =>
            let nRes := Resources zone in
            match entry h nRes resName with
            | Some available =>
                let c := Cmp quantity available in
                if c =? 0 then
                  range_nodes resName numaNodes rest (Sub quantity available)
                    (store h nRes resName zeroQuantity)
                else if c =? 1 then
                  range_nodes resName numaNodes rest (Sub quantity available)
                    (store h nRes resName zeroQuantity)
                else if c =? -1 then
                  range_nodes resName numaNodes rest zeroQuantity
                    (store h nRes resName (Sub available quantity))
                else range_nodes resName numaNodes rest quantity h
            | None => range_nodes resName numaNodes rest quantity h
            end
        end
  end.

(** The outer loop, [for resName, quantity := range resources].  Go leaves the
    iteration order of a map unspecified: [keys] is the order in which the
    names come up.  Each iteration reads its [quantity] from the map object
    as it is at that point.  [true] is a normal return, [false] a panic. *)
Fixpoint range_resources (keys : list ResourceName) (resources : mapref)
    (numaNodes : NUMANodeList) (nodes : list Z) (h : heap) : bool * heap :=
  match keys with
  | [] => (true, h)
  | resName :: later =>
      match entry h resources resName with
      | None => range_resources later resources numaNodes nodes h
      | Some quantity =>
          match range_nodes resName numaNodes nodes quantity h with
          | (None, h') => (false, h')
          | (Some _, h') => range_resources later resources numaNodes nodes h'
          end
      end
  end.

Definition subtractFromNUMAs (keys : list ResourceName) (resources : mapref)
    (numaNodes : NUMANodeList) (nodes : list Z) (h : heap) : bool * heap :=
  range_resources keys resources numaNodes nodes h.

(** [keys] is an iteration order of the map behind [resources]: every name of
    the map, once. *)
Definition range_order (keys : list ResourceName) (h : heap) (resources : mapref) : Prop :=
  keys ≡ₚ (map_to_list (load h resources)).*1.

(** ** Zone totals *)

(** What zone number [i] holds of [k]: its entry, if the zone exists and has
    one. *)
Definition zone_entry (h : heap) (numaNodes : NUMANodeList) (k : ResourceName)
    (i : nat) : option Quantity :=
  match numaNodes !! i with
  | Some zone => entry h (Resources zone) k
  | None => None
  end.

(** The available amount of zone [i]; a zone without an entry has nothing. *)
Definition zone_available (h : heap) (numaNodes : NUMANodeList) (k : ResourceName)
    (i : nat) : Quantity :=
  default 0 (zone_entry h numaNodes k i).

(** [f 0 + ... + f (n-1)] *)
Fixpoint sum_upto (f : nat → Z) (n : nat) : Z :=
  match n with
  | O => 0
  | S m => sum_upto f m + f m
  end.

(** The inventory total of [k], over all zones. *)
Definition total_available (h : heap) (numaNodes : NUMANodeList) (k : ResourceName) : Z :=
  sum_upto (zone_available h numaNodes k) (length numaNodes).

(** Zone [i] is named in the order list. *)
Definition listed (nodes : list Z) (i : nat) : bool := bool_decide (Z.of_nat i ∈ nodes).

(** The total of [k] over the zones named in the order list, each zone once. *)
Definition listed_available (h : heap) (numaNodes : NUMANodeList) (nodes : list Z)
    (k : ResourceName) : Z :=
  sum_upto (λ i, if listed nodes i then zone_available h numaNodes k i else 0)
           (length numaNodes).

(** What the call took from zone [i], and from all zones together. *)
Definition zone_subtracted (h h' : heap) (numaNodes : NUMANodeList) (k : ResourceName)
    (i : nat) : Z :=
  zone_available h numaNodes k i - zone_available h' numaNodes k i.

Definition total_subtracted (h h' : heap) (numaNodes : NUMANodeList) (k : ResourceName) : Z :=
  sum_upto (zone_subtracted h h' numaNodes k) (length numaNodes).

(** ** Conditions on the arguments *)

(** What a call may be assumed to be given: an order list of zone ids that
    exist, amounts that are not negative, and zones that are separate pools,
    each with a map of its own. *)

(** Every listed zone id is an index of the inventory. *)
Definition valid_order (numaNodes : NUMANodeList) (nodes : list Z) : Prop :=
  Forall (λ node, 0 ≤ node < Z.of_nat (length numaNodes)) nodes.

(** Each zone owns its resource map: no two zones share a map object (zones
    with a nil map are given references of their own). *)
Definition own_maps (numaNodes : NUMANodeList) : Prop :=
  NoDup (Resources <$> numaNodes).

(** No amount in the map behind [r] is negative. *)
Definition nonneg_map (h : heap) (r : mapref) : Prop :=
  map_Forall (λ _ q, 0 ≤ q) (load h r).

(** No zone holds a negative amount. *)
Definition nonneg_zones (h : heap) (numaNodes : NUMANodeList) : Prop :=
  Forall (λ zone, nonneg_map h (Resources zone)) numaNodes.

(** The map objects of the zones named in the order list. *)
Definition listed_refs (numaNodes : NUMANodeList) (nodes : list Z) : list mapref :=
  omap (λ node, Resources <$> index numaNodes node) nodes.

(** Every requested amount is zero. *)
Definition zero_request (h : heap) (resources : mapref) : Prop :=
  map_Forall (λ _ q, q = 0) (load h resources).

(** No listed zone has an entry under [k]. *)
Definition absent_from_listed (h : heap) (numaNodes : NUMANodeList) (nodes : list Z)
    (k : ResourceName) : Prop :=
  Forall (λ r, entry h r k = None) (listed_refs numaNodes nodes).

(** ** The effects of a call *)

(** [ledger_writes numaNodes nodes keys h h']: the heap [h'] comes from [h]
    by a sequence of writes, each one to an entry that exists, in the map of
    a zone named in the order list, under one of the names [keys]. *)
Inductive ledger_writes (numaNodes : NUMANodeList) (nodes : list Z)
    (keys : list ResourceName) (h : heap) : heap → Prop :=
  | ledger_writes_none : ledger_writes numaNodes nodes keys h h
  | ledger_writes_store h' zone node k a v :
      ledger_writes numaNodes nodes keys h h' →
      node ∈ nodes → index numaNodes node = Some zone → k ∈ keys →
      entry h' (Resources zone) k = Some a →
      ledger_writes numaNodes nodes keys h (store h' (Resources zone) k v).

(** ** The call in the caller's memory *)

(** What the caller can look at after a call: the map objects, the backing
    array of the inventory slice, and the backing array of the variadic slice
    of zone ids.  The loops below are [subtractFromNUMAs] once more, this
    time reading [numaNodes[node]] and the next [node] out of that memory at
    each iteration, so that a write to either array would show. *)
Record Mem := mkMem {
  mem_maps : heap;
  mem_zones : NUMANodeList;
  mem_nodes : list Z
}.

(** [m[resName] = q] is the only assignment of the function that reaches
    memory; the other assignments are to the local [quantity] and
    [available]. *)
Definition write_map (m : Mem) (r : mapref) (resName : ResourceName) (q : Quantity)
    : Mem :=
  mkMem (store (mem_maps m) r resName q) (mem_zones m) (mem_nodes m).

(** [for _, node := range nodes], from position [i] with [n] positions to
    go; the length of the slice is taken once, when the loop starts. *)
Fixpoint range_nodes_mem (resName : ResourceName) (i n : nat)
    (quantity : Quantity) (m : Mem) : option Quantity * Mem :=
  match n with
  | O => (Some quantity, m)
  | S n' =>
      match mem_nodes m !! i with
      | None => (None, m)
      | Some node =>
          if IsZero quantity then (Some quantity, m)
          else
            match index (mem_zones m) node with
            | None => (None, m)
            | Some zone =>
                let nRes := Resources zone in
                match entry (mem_maps m) nRes resName with
                | Some available =>
                    let c := Cmp quantity available in
                    if c =? 0 then
                      range_nodes_mem resName (S i) n' (Sub quantity available)
                        (write_map m nRes resName zeroQuantity)
                    else if c =? 1 then
                      range_nodes_mem resName (S i) n' (Sub quantity available)
                        (write_map m nRes resName zeroQuantity)
                    else if c =? -1 then
                      range_nodes_mem resName (S i) n' zeroQuantity
                        (write_map m nRes resName (Sub available quantity))
                    else range_nodes_mem resName (S i) n' quantity m
                | None => range_nodes_mem resName (S i) n' quantity m
                end
            end
      end
  end.

(** [for resName, quantity := range resources] *)
Fixpoint range_resources_mem (keys : list ResourceName) (resources : mapref)
    (m : Mem) : bool * Mem :=
  match keys with
  | [] => (true, m)
  | resName :: later =>
      match entry (mem_maps m) resources resName with
      | None => range_resources_mem later resources m
      | Some quantity =>
          match range_nodes_mem resName 0 (length (mem_nodes m)) quantity m with
          | (None, m') => (false, m')
          | (Some _, m') => range_resources_mem later resources m'
          end
      end
  end.

(** [subtractFromNUMAs(resources, numaNodes, nodes...)], with the two slices
    in memory. *)
Definition subtractFromNUMAs_mem (keys : list ResourceName) (resources : mapref)
    (m : Mem) : bool * Mem :=
  range_resources_mem keys resources m.

(** * The plugin *)

(** [Name], the name of the plugin in the registry. *)
Definition Name : string := "NodeResourceTopologyMatch".

(** ** Alignment policies *)

(** [topologyv1alpha1.TopologyManagerPolicy] is a string type. *)
Abbreviation TopologyManagerPolicy := string.

(** Modelled from the spec: the six policy constants are declared in the
    noderesourcetopology-api module, outside this repository.  Each is taken
    as the string that spells its own name; what matters here is that they
    are six different values of a string type that has many more (the map
    literal below compiles, and Go refuses a literal that repeats a constant
    key). *)
Definition SingleNUMANodePodLevel : TopologyManagerPolicy := "SingleNUMANodePodLevel".
Definition SingleNUMANodeContainerLevel : TopologyManagerPolicy := "SingleNUMANodeContainerLevel".
Definition BestEffortPodLevel : TopologyManagerPolicy := "BestEffortPodLevel".
Definition BestEffortContainerLevel : TopologyManagerPolicy := "BestEffortContainerLevel".
Definition RestrictedPodLevel : TopologyManagerPolicy := "RestrictedPodLevel".
Definition RestrictedContainerLevel : TopologyManagerPolicy := "RestrictedContainerLevel".

(** The spec's Alignment Policy: an alignment mode together with a scope. *)
Inductive AlignmentMode := SingleNUMANode | BestEffort | Restricted.
Inductive Scope := PodLevel | ContainerLevel.

(** The constant that stands for a mode and a scope. *)
Definition policy (mode : AlignmentMode) (scope : Scope) : TopologyManagerPolicy :=
  match mode, scope with
  | SingleNUMANode, PodLevel => SingleNUMANodePodLevel
  | SingleNUMANode, ContainerLevel => SingleNUMANodeContainerLevel
  | BestEffort, PodLevel => BestEffortPodLevel
  | BestEffort, ContainerLevel => BestEffortContainerLevel
  | Restricted, PodLevel => RestrictedPodLevel
  | Restricted, ContainerLevel => RestrictedContainerLevel
  end.

(** ** Configuration *)

(** The configuration types of [apis/config], outside the source at hand;
    the fields are the ones [New] reads. *)
Module apiconfig.

Abbreviation ScoringStrategyType := string.

Definition LeastNUMANodes : ScoringStrategyType := "LeastNUMANodes".

Record ResourceSpec := mkResourceSpec {
  Name : string;
  Weight : Z
}.

(** The Go field [Type] is [Type_] here. *)
Record ScoringStrategy := mkScoringStrategy {
  Type_ : ScoringStrategyType;
  Resources : list ResourceSpec
}.

Record NodeResourceTopologyMatchArgs := mkNodeResourceTopologyMatchArgs {
  ScoringStrategy_ : ScoringStrategy
}.

End apiconfig.

(** [runtime.Object], by dynamic type: a
    [*apiconfig.NodeResourceTopologyMatchArgs], possibly the nil pointer, or a
    value of another type (the nil interface included), given by the name
    [%T] prints for it. *)
Inductive Object :=
  | MatchArgs (tcfg : option apiconfig.NodeResourceTopologyMatchArgs)
  | OtherObject (typeName : string).

Definition error := string.

(** ** What the plugin is built from *)

(** The types of the scheduler framework and of the topology API that the
    plugin passes around without looking inside. *)
Class Framework := {
  Pod : Type;
  ZoneList : Type;
  NodeInfo : Type;
  Status : Type;
  Handle : Type;
  (** [nrtcache.Interface] *)
  Cache : Type;
  (** [scoreStrategyFn] *)
  scoreStrategyFn : Type
}.

(** [filterFn] and [scoringFn] *)
Definition filterFn `{Framework} : Type := Pod → ZoneList → NodeInfo → Status.
Definition scoringFn `{Framework} : Type := Pod → ZoneList → Z * Status.

(** [filterHandlersMap] and [scoreHandlersMap] *)
Abbreviation filterHandlersMap := (gmap TopologyManagerPolicy filterFn).
Abbreviation scoreHandlersMap := (gmap TopologyManagerPolicy scoringFn).

(** The Go type [resourceToWeightMap]; the plugin's field of that name is
    below. *)
Abbreviation weightMap := (gmap ResourceName Z).

(** The functions of this package that [plugin.go] calls and that are defined
    in its other files.  A function that returns a value and an error returns
    a pair; [None] is the nil error. *)
Class Collaborators `{Framework} := {
  leastNUMAPodScopeScore : scoringFn;
  leastNUMAContainerScopeScore : scoringFn;
  initNodeTopologyInformer :
    option apiconfig.NodeResourceTopologyMatchArgs → Handle → Cache * option error;
  getScoringStrategyFunction :
    apiconfig.ScoringStrategyType → scoreStrategyFn * option error;
  newScoringHandlers : scoreStrategyFn → weightMap → scoreHandlersMap;
  newFilterHandlers : filterHandlersMap
}.

(** ** leastNUMAscoreHandlers *)

(** The entries of the map literal, line by line. *)
Definition leastNUMAscoreHandlers_literal `{Collaborators}
    : list (TopologyManagerPolicy * scoringFn) :=
  [ (SingleNUMANodePodLevel, leastNUMAPodScopeScore);
    (SingleNUMANodeContainerLevel, leastNUMAContainerScopeScore);
    (BestEffortPodLevel, leastNUMAPodScopeScore);
    (BestEffortContainerLevel, leastNUMAContainerScopeScore);
    (RestrictedPodLevel, leastNUMAPodScopeScore);
    (RestrictedContainerLevel, leastNUMAContainerScopeScore) ].

Definition leastNUMAscoreHandlers `{Collaborators} : scoreHandlersMap :=
  list_to_map leastNUMAscoreHandlers_literal.

(** The scorer for a scope. *)
Definition leastNUMAScore `{Collaborators} (scope : Scope) : scoringFn :=
  match scope with
  | PodLevel => leastNUMAPodScopeScore
  | ContainerLevel => leastNUMAContainerScopeScore
  end.

(** ** TopologyMatch and New *)

Record TopologyMatch `{Framework} := mkTopologyMatch {
  filterHandlers : filterHandlersMap;
  scoringHandlers : scoreHandlersMap;
  resourceToWeightMap : weightMap;
  nrtCache : Cache
}.

(** A call either returns or panics. *)
Inductive outcome (A : Type) :=
  | Returns (a : A)
  | Panics.
Arguments Returns {A} a.
Arguments Panics {A}.

(** The error of the failed type assertion. *)
Definition wrongArgs (typeName : string) : error :=
  "want args to be of type NodeResourceTopologyMatchArgs, got " +:+ typeName.

(** The loop that fills [resToWeightMap]: a later resource of the same name
    overwrites an earlier one. *)
Definition fillWeights (resources : list apiconfig.ResourceSpec) : weightMap :=
  foldl (λ m resource, <[apiconfig.Name resource := apiconfig.Weight resource]> m)
        ∅ resources.

(** [New].  The result is the pair Go returns, plugin and error, [None] being
    nil.  Logging is left out; [handle] is a live handle, so that the call of
    [handle.KubeConfig] for the log line returns.  Reading
    [tcfg.ScoringStrategy] through a nil pointer is the panic. *)
Definition New `{Collaborators} (args : Object) (handle : Handle)
    : outcome (option TopologyMatch * option error) :=
  match args with
  | OtherObject typeName => Returns (None, Some (wrongArgs typeName))
  | MatchArgs tcfg =>
      let '(nrtCache, err) := initNodeTopologyInformer tcfg handle in
      match err with
      | Some e => Returns (None, Some e)
      | None =>
          match tcfg with
          | None => Panics
          | Some cfg =>
              let strategy := apiconfig.ScoringStrategy_ cfg in
              let resToWeightMap := fillWeights (apiconfig.Resources strategy) in
              if decide (apiconfig.Type_ strategy = apiconfig.LeastNUMANodes) then
                Returns (Some {| filterHandlers := newFilterHandlers;
                                 scoringHandlers := leastNUMAscoreHandlers;
                                 resourceToWeightMap := resToWeightMap;
                                 nrtCache := nrtCache |}, None)
              else
                let '(strategyFn, err) :=
                  getScoringStrategyFunction (apiconfig.Type_ strategy) in
                match err with
                | Some e => Returns (None, Some e)
                | None =>
                    Returns (Some {| filterHandlers := newFilterHandlers;
                                     scoringHandlers :=
                                       newScoringHandlers strategyFn resToWeightMap;
                                     resourceToWeightMap := resToWeightMap;
                                     nrtCache := nrtCache |}, None)
                end
          end
      end
  end.

(** ** Test data *)

Definition cpu : ResourceName := "cpu".
Definition memory : ResourceName := "memory".

Definition zones2 : NUMANodeList := [mkNUMANode 0 1%nat; mkNUMANode 1 2%nat].

(** Request {cpu: 6, memory: 4} at reference 0, two zones {cpu: 4, memory: 8}. *)
Definition heap_pod : heap :=
  {[ 0%nat := {[ cpu := 6; memory := 4 ]};
     1%nat := {[ cpu := 4; memory := 8 ]};
     2%nat := {[ cpu := 4; memory := 8 ]} ]}.

Definition zones1 : NUMANodeList := [mkNUMANode 0 1%nat].

(** Request {cpu: 3} at reference 0, one zone {cpu: 3}. *)
Definition heap_equal : heap :=
  {[ 0%nat := {[ cpu := 3 ]}; 1%nat := {[ cpu := 3 ]} ]}.

(** Request {cpu: 0, memory: 0} at reference 0, two zones. *)
Definition heap_zero : heap :=
  {[ 0%nat := {[ cpu := 0; memory := 0 ]};
     1%nat := {[ cpu := 4; memory := 8 ]};
     2%nat := {[ cpu := 4; memory := 8 ]} ]}.

(** Request {cpu: 2, gpu: 1} at reference 0; no zone knows about gpu. *)
Definition gpu : ResourceName := "example.com/gpu".

Definition heap_gpu : heap :=
  {[ 0%nat := {[ cpu := 2; gpu := 1 ]};
     1%nat := {[ cpu := 4; memory := 8 ]};
     2%nat := {[ cpu := 4; memory := 8 ]} ]}.

(** A framework and collaborators to run [New] on: the informer always comes
    up, and the strategy lookup knows "MostAllocated" only. *)
Definition testFramework : Framework :=
  {| Pod := unit; ZoneList := unit; NodeInfo := unit; Status := unit;
     Handle := unit; Cache := nat; scoreStrategyFn := string |}.

Definition testCollaborators : @Collaborators testFramework :=
  {| leastNUMAPodScopeScore := (λ _ _, (1, tt)) : @scoringFn testFramework;
     leastNUMAContainerScopeScore := (λ _ _, (2, tt)) : @scoringFn testFramework;
     initNodeTopologyInformer := λ _ _, (7%nat, None);
     getScoringStrategyFunction := λ t,
       if decide (t = "MostAllocated") then (t, None)
       else ("", Some "illegal scoring strategy found");
     newScoringHandlers := λ _ _, ∅;
     newFilterHandlers := ∅ |}.

Definition argsLeastNUMA : Object :=
  MatchArgs (Some (apiconfig.mkNodeResourceTopologyMatchArgs
    (apiconfig.mkScoringStrategy apiconfig.LeastNUMANodes
       [apiconfig.mkResourceSpec "cpu" 2; apiconfig.mkResourceSpec "memory" 1]))).

Definition argsMostAllocated : Object :=
  MatchArgs (Some (apiconfig.mkNodeResourceTopologyMatchArgs
    (apiconfig.mkScoringStrategy "MostAllocated"
       [apiconfig.mkResourceSpec "cpu" 2; apiconfig.mkResourceSpec "memory" 1]))).

Definition argsUnknown : Object :=
  MatchArgs (Some (apiconfig.mkNodeResourceTopologyMatchArgs
    (apiconfig.mkScoringStrategy "Fastest" []))).

(** The two zones in memory, with the order 0, 1 and the request of
    [heap_pod]. *)
Definition mem_pod : Mem := mkMem heap_pod zones2 [0; 1].

(** A call that passes the map of zone 0 as the request:
    [subtractFromNUMAs(numaNodes[0].Resources, numaNodes, 0)]. *)
Definition mem_alias : Mem :=
  mkMem {[ 1%nat := {[ cpu := 4; memory := 8 ]};
              2%nat := {[ cpu := 4; memory := 8 ]} ]}
           zones2 [0].

(** Collaborators whose score table shows what it was built from: the one
    entry is filed under the name of the strategy function and scores the
    weight of cpu. *)
Definition weightedCollaborators : @Collaborators testFramework :=
  {| leastNUMAPodScopeScore := (λ _ _, (1, tt)) : @scoringFn testFramework;
     leastNUMAContainerScopeScore := (λ _ _, (2, tt)) : @scoringFn testFramework;
     initNodeTopologyInformer := λ _ _, (7%nat, None);
     getScoringStrategyFunction := λ t,
       if decide (t = "MostAllocated") then (t, None)
       else ("", Some "illegal scoring strategy found");
     newScoringHandlers := λ fn weights,
       {[ fn := (λ _ _, (default 0 (weights !! "cpu"), tt)) : @scoringFn testFramework ]};
     newFilterHandlers := ∅ |}.

(** ** Reading and writing map objects *)

Lemma load_store h r k v r' :
  load (store h r k v) r' = if decide (r = r') then <[k := v]> (load h r) else load h r'.
Proof.
  unfold load, store. destruct (decide (r = r')) as [->|Hne].
  - by rewrite lookup_insert_eq.
  - by rewrite lookup_insert_ne.
Qed.

Lemma entry_store h r k v r' k' :
  entry (store h r k v) r' k' =
  if decide (r = r' ∧ k = k') then Some v else entry h r' k'.
Proof.
  unfold entry. rewrite load_store.
  destruct (decide (r = r')) as [->|Hne].
  - destruct (decide (k = k')) as [->|Hk].
    + rewrite lookup_insert_eq. by rewrite decide_True.
    + rewrite lookup_insert_ne by done. rewrite decide_False; [done | tauto].
  - rewrite decide_False; [done | tauto].
Qed.

Lemma entry_store_eq h r k v : entry (store h r k v) r k = Some v.
Proof. rewrite entry_store. by rewrite decide_True. Qed.

Lemma entry_store_ne h r k v r' k' :
  r ≠ r' ∨ k ≠ k' → entry (store h r k v) r' k' = entry h r' k'.
Proof. intros Hne. rewrite entry_store. rewrite decide_False; [done | tauto]. Qed.

Lemma store_lookup_ne h r k v r' : r ≠ r' → store h r k v !! r' = h !! r'.
Proof. intros Hne. unfold store. by rewrite lookup_insert_ne. Qed.

(** ** Comparison *)

Lemma Cmp_cases q a :
  (q = a ∧ Cmp q a = 0) ∨ (a < q ∧ Cmp q a = 1) ∨ (q < a ∧ Cmp q a = -1).
Proof.
  unfold Cmp. destruct (Z.compare_spec q a); [left | right; right | right; left]; lia.
Qed.

Lemma index_Some numaNodes node zone :
  index numaNodes node = Some zone ↔
  0 ≤ node < Z.of_nat (length numaNodes) ∧ numaNodes !! Z.to_nat node = Some zone.
Proof.
  unfold index. split.
  - destruct (0 <=? node) eqn:H0; [|done].
    destruct (node <? Z.of_nat (length numaNodes)) eqn:H1; [|done].
    simpl. intros ->. split; [lia | done].
  - intros [[H0 H1] Hz].
    apply Z.leb_le in H0. apply Z.ltb_lt in H1. by rewrite H0, H1.
Qed.

Lemma index_None numaNodes node :
  index numaNodes node = None ↔ ¬ (0 ≤ node < Z.of_nat (length numaNodes)).
Proof.
  split.
  - intros Hn [H0 H1].
    destruct (lookup_lt_is_Some_2 numaNodes (Z.to_nat node)) as [z Hz]; [lia|].
    assert (index numaNodes node = Some z) by (apply index_Some; split; [lia | done]).
    congruence.
  - intros Hn. destruct (index numaNodes node) as [z|] eqn:Hi; [|done].
    apply index_Some in Hi. tauto.
Qed.

(** ** The inner loop, one step at a time *)

(** One iteration, with the switch on [Cmp] resolved into its arithmetic
    meaning: the equal and the larger case do the same. *)
Lemma range_nodes_cons k zs node rest q h :
  range_nodes k zs (node :: rest) q h =
  if decide (q = 0) then (Some q, h)
  else match index zs node with
       | None => (None, h)
       | Some z =>
           match entry h (Resources z) k with
           | Some a =>
               if decide (a ≤ q)
               then range_nodes k zs rest (q - a) (store h (Resources z) k 0)
               else range_nodes k zs rest 0 (store h (Resources z) k (a - q))
           | None => range_nodes k zs rest q h
           end
       end.
Proof.
  simpl. unfold IsZero, Sub, zeroQuantity.
  destruct (decide (q = 0)) as [->|Hq]; [done|].
  destruct (Z.eqb_spec q 0) as [|_]; [done|].
  destruct (index zs node) as [z|]; [|done].
  destruct (entry h (Resources z) k) as [a|]; [|done].
  destruct (Cmp_cases q a) as [[? ->]|[[? ->]|[? ->]]]; simpl.
  - by rewrite decide_True by lia.
  - by rewrite decide_True by lia.
  - by rewrite decide_False by lia.
Qed.

(** With nothing left to ask for, the loop stops at once. *)
Lemma range_nodes_zero k zs nodes h : range_nodes k zs nodes 0 h = (Some 0, h).
Proof. by destruct nodes. Qed.

(** Every write of the inner loop goes to the map of a listed zone that
    already has the name, and writes a non-negative amount.  A property of
    the heap that such writes keep holds at the end. *)
Lemma range_nodes_inv (P : heap → Prop) k zs nodes :
  (∀ h z node a v,
      node ∈ nodes → index zs node = Some z →
      entry h (Resources z) k = Some a → 0 ≤ v →
      P h → P (store h (Resources z) k v)) →
  ∀ q h, P h → P (range_nodes k zs nodes q h).2.
Proof.
  induction nodes as [|node rest IH]; intros Hstep q h HP; [done|].
  rewrite range_nodes_cons.
  assert (Hrest : ∀ q' h', P h' → P (range_nodes k zs rest q' h').2).
  { apply IH. intros h0 z n a v Hn. apply Hstep. by right. }
  destruct (decide (q = 0)); [done|].
  destruct (index zs node) as [z|] eqn:Hi; [|done].
  destruct (entry h (Resources z) k) as [a|] eqn:He; [|by apply Hrest].
  destruct (decide (a ≤ q)); apply Hrest.
  - apply (Hstep h z node a); [by left | done | done | lia | done].
  - apply (Hstep h z node a); [by left | done | done | lia | done].
Qed.

(** The same for the whole call: writes go to listed zones, under names in
    the iteration order. *)
Lemma range_resources_inv (P : heap → Prop) keys resources zs nodes :
  (∀ h z node k a v,
      k ∈ keys → node ∈ nodes → index zs node = Some z →
      entry h (Resources z) k = Some a → 0 ≤ v →
      P h → P (store h (Resources z) k v)) →
  ∀ h, P h → P (range_resources keys resources zs nodes h).2.
Proof.
  induction keys as [|k later IH]; intros Hstep h HP; [done|].
  simpl.
  assert (Hlater : ∀ h', P h' → P (range_resources later resources zs nodes h').2).
  { apply IH. intros h0 z n k' a v Hk. apply Hstep. by right. }
  destruct (entry h resources k) as [q|]; [|by apply Hlater].
  pose proof (range_nodes_inv P k zs nodes) as Hin.
  destruct (range_nodes k zs nodes q h) as [[q'|] h'] eqn:Hr.
  - apply Hlater. specialize (Hin ltac:(intros h0 z n a v; apply Hstep; by left) q h HP).
    by rewrite Hr in Hin.
  - specialize (Hin ltac:(intros h0 z n a v; apply Hstep; by left) q h HP).
    by rewrite Hr in Hin.
Qed.

(** ** Sums over zone numbers *)

Lemma sum_upto_ext f g n :
  (∀ i, (i < n)%nat → f i = g i) → sum_upto f n = sum_upto g n.
Proof.
  induction n as [|n IH]; intros Hfg; [done|].
  simpl. rewrite IH by (intros; apply Hfg; lia). rewrite Hfg by lia. done.
Qed.

(** Two summands that differ at one place only. *)
Lemma sum_upto_update f g n i0 :
  (i0 < n)%nat → (∀ i, (i < n)%nat → i ≠ i0 → f i = g i) →
  sum_upto f n = sum_upto g n + (f i0 - g i0).
Proof.
  induction n as [|n IH]; intros Hi Hfg; [lia|].
  simpl. destruct (decide (i0 = n)) as [->|Hne].
  - rewrite (sum_upto_ext f g n) by (intros; apply Hfg; lia). lia.
  - rewrite IH by (try lia; intros; apply Hfg; lia).
    rewrite (Hfg n) by lia. lia.
Qed.

Lemma sum_upto_sub f g n :
  sum_upto (λ i, f i - g i) n = sum_upto f n - sum_upto g n.
Proof. induction n as [|n IH]; simpl; lia. Qed.

Lemma sum_upto_nonneg f n :
  (∀ i, (i < n)%nat → 0 ≤ f i) → 0 ≤ sum_upto f n.
Proof.
  induction n as [|n IH]; intros Hf; simpl; [lia|].
  specialize (Hf n ltac:(lia)) as Hn.
  assert (0 ≤ sum_upto f n) by (apply IH; intros; apply Hf; lia). lia.
Qed.

Lemma sum_upto_le f g n :
  (∀ i, (i < n)%nat → f i ≤ g i) → sum_upto f n ≤ sum_upto g n.
Proof.
  induction n as [|n IH]; intros Hf; simpl; [lia|].
  specialize (Hf n ltac:(lia)) as Hn.
  assert (sum_upto f n ≤ sum_upto g n) by (apply IH; intros; apply Hf; lia). lia.
Qed.

Lemma sum_upto_ge_term f n i0 :
  (∀ i, (i < n)%nat → 0 ≤ f i) → (i0 < n)%nat → f i0 ≤ sum_upto f n.
Proof.
  intros Hf Hi.
  rewrite (sum_upto_update f (λ i, if decide (i = i0) then 0 else f i) n i0 Hi).
  - rewrite decide_True by done.
    assert (0 ≤ sum_upto (λ i, if decide (i = i0) then 0 else f i) n); [|lia].
    apply sum_upto_nonneg. intros i Hlt. destruct (decide (i = i0)); [lia | by apply Hf].
  - intros i _ Hne. by rewrite decide_False.
Qed.

(** ** Zone views of the heap *)

Lemma total_subtracted_eq h h' zs k :
  total_subtracted h h' zs k = total_available h zs k - total_available h' zs k.
Proof. unfold total_subtracted, total_available, zone_subtracted. apply sum_upto_sub. Qed.

(** The zone views of [k] depend on the entries under [k] only. *)
Lemma zone_entry_col h h' zs k i :
  (∀ r, entry h' r k = entry h r k) → zone_entry h' zs k i = zone_entry h zs k i.
Proof. intros Hc. unfold zone_entry. by destruct (zs !! i). Qed.

Lemma zone_available_col h h' zs k i :
  (∀ r, entry h' r k = entry h r k) → zone_available h' zs k i = zone_available h zs k i.
Proof. intros Hc. unfold zone_available. by rewrite (zone_entry_col h h'). Qed.

Lemma total_available_col h h' zs k :
  (∀ r, entry h' r k = entry h r k) → total_available h' zs k = total_available h zs k.
Proof.
  intros Hc. unfold total_available. apply sum_upto_ext. intros i _.
  by apply zone_available_col.
Qed.

Lemma listed_available_col h h' zs nodes k :
  (∀ r, entry h' r k = entry h r k) →
  listed_available h' zs nodes k = listed_available h zs nodes k.
Proof.
  intros Hc. unfold listed_available. apply sum_upto_ext. intros i _.
  by rewrite (zone_available_col h h').
Qed.

(** When zones own their maps, a write to the map of zone [i0] is seen by
    zone [i0] alone. *)
Lemma zone_entry_store h zs k v i0 z0 i :
  own_maps zs → zs !! i0 = Some z0 →
  zone_entry (store h (Resources z0) k v) zs k i =
  if decide (i = i0) then Some v else zone_entry h zs k i.
Proof.
  intros Hown Hz0. unfold zone_entry.
  destruct (decide (i = i0)) as [->|Hne].
  - rewrite Hz0. apply entry_store_eq.
  - destruct (zs !! i) as [z|] eqn:Hz; [|done].
    apply entry_store_ne. left. intros Heq.
    apply Hne. symmetry.
    apply (NoDup_lookup (Resources <$> zs) i0 i (Resources z0)); [done | |].
    + by rewrite list_lookup_fmap, Hz0.
    + by rewrite list_lookup_fmap, Hz, Heq.
Qed.

Lemma zone_available_store h zs k v i0 z0 i :
  own_maps zs → zs !! i0 = Some z0 →
  zone_available (store h (Resources z0) k v) zs k i =
  if decide (i = i0) then v else zone_available h zs k i.
Proof.
  intros Hown Hz0. unfold zone_available.
  rewrite (zone_entry_store h zs k v i0 z0 i Hown Hz0).
  by destruct (decide (i = i0)).
Qed.

Lemma zone_available_Some h zs k i z a :
  zs !! i = Some z → entry h (Resources z) k = Some a → zone_available h zs k i = a.
Proof. intros Hz He. unfold zone_available, zone_entry. by rewrite Hz, He. Qed.

Lemma zone_available_None h zs k i z :
  zs !! i = Some z → entry h (Resources z) k = None → zone_available h zs k i = 0.
Proof. intros Hz He. unfold zone_available, zone_entry. by rewrite Hz, He. Qed.

Lemma listed_head node rest i : node = Z.of_nat i → listed (node :: rest) i = true.
Proof. intros ->. unfold listed. apply bool_decide_eq_true. by left. Qed.

Lemma listed_tail node rest i : node ≠ Z.of_nat i → listed (node :: rest) i = listed rest i.
Proof.
  intros Hne. unfold listed. apply bool_decide_ext.
  rewrite elem_of_cons. split; [intros [Heq|Hin]; [by symmetry in Heq | done] | by right].
Qed.

(** ** Conservation, for one resource name *)

Section conservation.
Context (k : ResourceName) (zs : NUMANodeList).
Hypothesis Hown : own_maps zs.

  (** Draining or reducing the zone at the head of the order list: the
      listed total loses what the zone had, whether or not the zone comes up
      again later in the list. *)
Lemma listed_available_drain h node rest i0 z0 a :
    node = Z.of_nat i0 → zs !! i0 = Some z0 →
    entry h (Resources z0) k = Some a →
    listed_available h zs (node :: rest) k =
    a + listed_available (store h (Resources z0) k 0) zs rest k.
Proof using Hown.
    intros Hnode Hz0 He. unfold listed_available.
    rewrite (sum_upto_update _
      (λ i, if listed rest i
            then zone_available (store h (Resources z0) k 0) zs k i else 0)
      (length zs) i0).
    - rewrite (listed_head node rest i0 Hnode).
      rewrite (zone_available_store h zs k 0 i0 z0 i0 Hown Hz0).
      rewrite decide_True by done.
      rewrite (zone_available_Some h zs k i0 z0 a Hz0 He).
      destruct (listed rest i0); lia.
    - by apply lookup_lt_Some in Hz0.
    - intros i _ Hne.
      rewrite listed_tail by (subst node; lia).
      rewrite (zone_available_store h zs k 0 i0 z0 i Hown Hz0).
      by rewrite decide_False.
Qed.

  (** A zone without an entry adds nothing to the listed total. *)
Lemma listed_available_skip h node rest i0 z0 :
    node = Z.of_nat i0 → zs !! i0 = Some z0 →
    entry h (Resources z0) k = None →
    listed_available h zs (node :: rest) k = listed_available h zs rest k.
Proof.
    intros Hnode Hz0 He. unfold listed_available.
    apply sum_upto_ext. intros i _.
    destruct (decide (i = i0)) as [->|Hne].
    - rewrite (zone_available_None h zs k i0 z0 Hz0 He).
      by destruct (listed (node :: rest) i0), (listed rest i0).
    - by rewrite listed_tail by (subst node; lia).
Qed.

Lemma total_available_store h i0 z0 a v :
    zs !! i0 = Some z0 → entry h (Resources z0) k = Some a →
    total_available (store h (Resources z0) k v) zs k = total_available h zs k - (a - v).
Proof using Hown.
    intros Hz0 He. unfold total_available.
    rewrite (sum_upto_update (zone_available h zs k)
               (zone_available (store h (Resources z0) k v) zs k) (length zs) i0).
    - rewrite (zone_available_store h zs k v i0 z0 i0 Hown Hz0).
      rewrite decide_True by done.
      rewrite (zone_available_Some h zs k i0 z0 a Hz0 He). lia.
    - by apply lookup_lt_Some in Hz0.
    - intros i _ Hne. rewrite (zone_available_store h zs k v i0 z0 i Hown Hz0).
      by rewrite decide_False.
Qed.

Lemma listed_available_ge_head h node rest i0 z0 a :
    (∀ i, 0 ≤ zone_available h zs k i) →
    node = Z.of_nat i0 → zs !! i0 = Some z0 →
    entry h (Resources z0) k = Some a →
    a ≤ listed_available h zs (node :: rest) k.
Proof.
    intros Hpos Hnode Hz0 He. unfold listed_available.
    pose (f := λ i, if listed (node :: rest) i then zone_available h zs k i else 0).
    assert (Hf : f i0 = a).
    { unfold f. rewrite (listed_head node rest i0 Hnode).
      apply (zone_available_Some h zs k i0 z0 a Hz0 He). }
    rewrite <- Hf. apply sum_upto_ge_term.
    - intros i _. unfold f. destruct (listed (node :: rest) i); [apply Hpos | lia].
    - by apply lookup_lt_Some in Hz0.
Qed.

  (** The inner loop takes [min q L] from the zones, where [L] is the listed
      total, leaves [q - min q L] unsatisfied, and keeps every zone amount
      non-negative. *)
Lemma range_nodes_conserve nodes : ∀ q h,
    valid_order zs nodes → 0 ≤ q →
    (∀ i, 0 ≤ zone_available h zs k i) →
    ∃ q' h',
      range_nodes k zs nodes q h = (Some q', h') ∧
      q' = q - Z.min q (listed_available h zs nodes k) ∧
      total_available h' zs k =
        total_available h zs k - Z.min q (listed_available h zs nodes k) ∧
      (∀ i, 0 ≤ zone_available h' zs k i).
Proof using Hown.
    induction nodes as [|node rest IH]; intros q h Hvalid Hq Hpos.
    - exists q, h. simpl.
      assert (listed_available h zs [] k = 0) as ->.
      { unfold listed_available.
        rewrite (sum_upto_ext _ (λ _, 0)); [|done].
        clear. induction (length zs); simpl; lia. }
      repeat split; [lia | lia | done].
    - apply Forall_cons in Hvalid as [Hnode Hvalid].
      assert (HL : 0 ≤ listed_available h zs (node :: rest) k).
      { apply sum_upto_nonneg. intros i _.
        destruct (listed (node :: rest) i); [apply Hpos | lia]. }
      rewrite range_nodes_cons.
      destruct (decide (q = 0)) as [->|Hq0].
      { exists 0, h. repeat split; [lia | lia | done]. }
      destruct (index zs node) as [z0|] eqn:Hi; [|apply index_None in Hi; tauto].
      apply index_Some in Hi as [_ Hz0].
      set (i0 := Z.to_nat node) in *.
      assert (Hn : node = Z.of_nat i0) by (unfold i0; lia).
      destruct (entry h (Resources z0) k) as [a|] eqn:He.
      + assert (Ha : 0 ≤ a).
        { specialize (Hpos i0).
          by rewrite (zone_available_Some h zs k i0 z0 a Hz0 He) in Hpos. }
        pose proof (listed_available_drain h node rest i0 z0 a Hn Hz0 He) as Hdrain.
        pose proof (listed_available_ge_head h node rest i0 z0 a Hpos Hn Hz0 He) as Hge.
        destruct (decide (a ≤ q)) as [Hle|Hgt].
        * assert (Hpos1 : ∀ i, 0 ≤ zone_available (store h (Resources z0) k 0) zs k i).
          { intros i. rewrite (zone_available_store h zs k 0 i0 z0 i Hown Hz0).
            destruct (decide (i = i0)); [lia | apply Hpos]. }
          destruct (IH (q - a) (store h (Resources z0) k 0) Hvalid ltac:(lia) Hpos1)
            as (q' & h' & Hrun & Hq' & Htot & Hpos').
          exists q', h'. split; [done|].
          rewrite (total_available_store h i0 z0 a 0 Hz0 He) in Htot.
          repeat split; [lia | lia | done].
        * rewrite range_nodes_zero.
          exists 0, (store h (Resources z0) k (a - q)).
          split; [done|].
          rewrite (total_available_store h i0 z0 a (a - q) Hz0 He).
          repeat split; [lia | lia |].
          intros i. rewrite (zone_available_store h zs k (a - q) i0 z0 i Hown Hz0).
          destruct (decide (i = i0)); [lia | apply Hpos].
      + rewrite (listed_available_skip h node rest i0 z0 Hn Hz0 He).
        by apply IH.
Qed.
End conservation.

(** ** Frame properties *)

(** The loop for [k] leaves the entries under every other name alone. *)
Lemma range_nodes_other k zs nodes q h r k' :
  k' ≠ k → entry (range_nodes k zs nodes q h).2 r k' = entry h r k'.
Proof.
  intros Hne.
  apply (range_nodes_inv (λ h', entry h' r k' = entry h r k')); [|done].
  intros h0 z node a v _ _ _ _ <-. apply entry_store_ne. by right.
Qed.

(** A call leaves alone the entries under names it does not iterate over. *)
Lemma range_resources_other keys resources zs nodes h r k :
  k ∉ keys → entry (range_resources keys resources zs nodes h).2 r k = entry h r k.
Proof.
  intros Hk.
  apply (range_resources_inv (λ h', entry h' r k = entry h r k)); [|done].
  intros h0 z node k' a v Hin _ _ _ _ <-. apply entry_store_ne.
  right. intros ->. by apply Hk.
Qed.

(** The listed zone ids resolve to the listed map objects. *)
Lemma elem_of_listed_refs zs nodes node z :
  node ∈ nodes → index zs node = Some z → Resources z ∈ listed_refs zs nodes.
Proof.
  intros Hin Hi. unfold listed_refs. apply list_elem_of_omap.
  exists node. split; [done|]. by rewrite Hi.
Qed.

(** Map objects that belong to no listed zone are not written. *)
Lemma range_resources_frame keys resources zs nodes h r :
  r ∉ listed_refs zs nodes →
  (range_resources keys resources zs nodes h).2 !! r = h !! r.
Proof.
  intros Hr.
  apply (range_resources_inv (λ h', h' !! r = h !! r)); [|done].
  intros h0 z node k a v _ Hin Hi _ _ <-. apply store_lookup_ne.
  intros Heq. apply Hr. rewrite <- Heq. by apply (elem_of_listed_refs zs nodes node).
Qed.

(** A call does nothing but write to the ledger. *)
Lemma range_resources_writes keys resources zs nodes h :
  ledger_writes zs nodes keys h (range_resources keys resources zs nodes h).2.
Proof.
  apply (range_resources_inv (ledger_writes zs nodes keys h)); [|constructor].
  intros h' z node k a v Hk Hnode Hi He _ Hw. by apply (ledger_writes_store _ _ _ _ _ _ node k a).
Qed.

(** A write to an existing entry keeps the set of names of every map. *)
Lemma is_Some_entry_store h r k a v r' k' :
  entry h r k = Some a →
  is_Some (entry (store h r k v) r' k') ↔ is_Some (entry h r' k').
Proof.
  intros He. rewrite entry_store.
  destruct (decide (r = r' ∧ k = k')) as [[<- <-]|_]; [|done].
  rewrite He. split; intros _; eauto.
Qed.

(** No call adds or removes a name in any map. *)
Lemma range_resources_names keys resources zs nodes h r k :
  is_Some (entry (range_resources keys resources zs nodes h).2 r k) ↔
  is_Some (entry h r k).
Proof.
  apply (range_resources_inv (λ h', is_Some (entry h' r k) ↔ is_Some (entry h r k)));
    [|done].
  intros h0 z node k' a v _ _ _ He _ <-. by apply (is_Some_entry_store h0 _ _ a).
Qed.

(** ** No panic on valid zone ids *)

Lemma range_nodes_total k zs nodes : ∀ q h,
  valid_order zs nodes → is_Some (range_nodes k zs nodes q h).1.
Proof.
  induction nodes as [|node rest IH]; intros q h Hvalid; [by eexists|].
  apply Forall_cons in Hvalid as [Hnode Hvalid].
  rewrite range_nodes_cons.
  destruct (decide (q = 0)); [by eexists|].
  destruct (index zs node) as [z|] eqn:Hi; [|apply index_None in Hi; tauto].
  destruct (entry h (Resources z) k) as [a|]; [|by apply IH].
  destruct (decide (a ≤ q)); by apply IH.
Qed.

Lemma range_resources_total keys resources zs nodes : ∀ h,
  valid_order zs nodes → (range_resources keys resources zs nodes h).1 = true.
Proof.
  induction keys as [|k later IH]; intros h Hvalid; [done|].
  simpl. destruct (entry h resources k) as [q|]; [|by apply IH].
  destruct (range_nodes_total k zs nodes q h Hvalid) as [q' Hq'].
  destruct (range_nodes k zs nodes q h) as [[q''|] h']; [by apply IH | done].
Qed.

(** ** Iteration orders *)

Lemma range_order_NoDup keys h resources : range_order keys h resources → NoDup keys.
Proof. intros ->. apply NoDup_fst_map_to_list. Qed.

Lemma range_order_elem_of keys h resources k :
  range_order keys h resources → k ∈ keys ↔ is_Some (entry h resources k).
Proof.
  intros ->. unfold entry. rewrite list_elem_of_fmap. split.
  - intros [[k' q] [-> Hin]]. apply elem_of_map_to_list in Hin. by eexists.
  - intros [q Hq]. exists (k, q). split; [done|]. by apply elem_of_map_to_list.
Qed.

(** ** Non-negative amounts *)

Lemma nonneg_map_entry h r k a : nonneg_map h r → entry h r k = Some a → 0 ≤ a.
Proof. intros Hm He. by apply (Hm k a). Qed.

Lemma nonneg_map_store h r k v r' :
  0 ≤ v → nonneg_map h r' → nonneg_map (store h r k v) r'.
Proof.
  intros Hv Hm. unfold nonneg_map. rewrite load_store.
  destruct (decide (r = r')) as [->|_]; [|done].
  by apply map_Forall_insert_2.
Qed.

Lemma nonneg_zones_available h zs k i : nonneg_zones h zs → 0 ≤ zone_available h zs k i.
Proof.
  intros Hz. unfold zone_available, zone_entry.
  destruct (zs !! i) as [z|] eqn:Hi; [|simpl; lia].
  destruct (entry h (Resources z) k) as [a|] eqn:He; [|simpl; lia].
  simpl. apply (nonneg_map_entry h (Resources z) k); [|done].
  unfold nonneg_zones in Hz. rewrite Forall_forall in Hz. apply Hz.
  by apply list_elem_of_lookup_2 in Hi.
Qed.

(** ** Conservation, for a whole call *)

Lemma range_resources_conserve k resources zs nodes q keys : ∀ h,
  own_maps zs → valid_order zs nodes →
  NoDup keys → k ∈ keys →
  entry h resources k = Some q → 0 ≤ q →
  (∀ i, 0 ≤ zone_available h zs k i) →
  total_available (range_resources keys resources zs nodes h).2 zs k =
  total_available h zs k - Z.min q (listed_available h zs nodes k).
Proof.
  intros h Hown Hvalid. revert h.
  induction keys as [|k0 later IH]; intros h Hnd Hin Hq Hq0 Hpos.
  { by apply elem_of_nil in Hin. }
  apply NoDup_cons in Hnd as [Hk0 Hnd]. simpl.
  destruct (decide (k0 = k)) as [->|Hne].
  - rewrite Hq.
    destruct (range_nodes_conserve k zs Hown nodes q h Hvalid Hq0 Hpos)
      as (q' & h' & Hrun & _ & Htot & _).
    rewrite Hrun. rewrite <- Htot.
    apply total_available_col. intros r. by apply range_resources_other.
  - apply elem_of_cons in Hin as [Heq|Hin]; [congruence|].
    assert (Hstep : ∀ h1, (∀ r, entry h1 r k = entry h r k) →
              total_available (range_resources later resources zs nodes h1).2 zs k =
              total_available h zs k - Z.min q (listed_available h zs nodes k)).
    { intros h1 Hcol.
      rewrite <- (total_available_col h h1 zs k Hcol).
      rewrite <- (listed_available_col h h1 zs nodes k Hcol).
      apply IH; [done | done | by rewrite Hcol | done |].
      intros i. by rewrite (zone_available_col h h1 zs k i Hcol). }
    destruct (entry h resources k0) as [q0|]; [|by apply Hstep].
    pose proof (range_nodes_other k0 zs nodes q0 h) as Hother.
    destruct (range_nodes_total k0 zs nodes q0 h Hvalid) as [q' Hq'].
    destruct (range_nodes k0 zs nodes q0 h) as [[q''|] h1]; [|done].
    apply Hstep. intros r. by apply Hother.
Qed.

(** ** Further facts about whole calls *)

(** A name whose requested amount is zero: nothing under that name changes,
    whatever else the call does. *)
Lemma range_resources_zero_kind k resources zs nodes keys : ∀ h,
  entry h resources k = Some 0 →
  ∀ r, entry (range_resources keys resources zs nodes h).2 r k = entry h r k.
Proof.
  induction keys as [|k0 later IH]; intros h Hq r; [done|].
  simpl. destruct (decide (k0 = k)) as [->|Hne].
  - rewrite Hq, range_nodes_zero. by apply IH.
  - destruct (entry h resources k0) as [q0|]; [|by apply IH].
    pose proof (range_nodes_other k0 zs nodes q0 h) as Hother.
    destruct (range_nodes k0 zs nodes q0 h) as [[q'|] h1]; simpl in Hother.
    + rewrite IH by (by rewrite Hother). by apply Hother.
    + by apply Hother.
Qed.

(** A name that no listed zone has: the inner loop changes nothing. *)
Lemma range_nodes_absent k zs nodes : ∀ q h,
  (∀ node z, node ∈ nodes → index zs node = Some z → entry h (Resources z) k = None) →
  (range_nodes k zs nodes q h).2 = h ∧
  (valid_order zs nodes → (range_nodes k zs nodes q h).1 = Some q).
Proof.
  induction nodes as [|node rest IH]; intros q h Habs; [done|].
  rewrite range_nodes_cons.
  destruct (decide (q = 0)); [done|].
  destruct (index zs node) as [z|] eqn:Hi.
  - rewrite (Habs node z) by (done || by left).
    destruct (IH q h) as [Hh Hq].
    { intros nd z' Hnd. apply Habs. by right. }
    split; [done|]. intros Hvalid. apply Hq. by apply Forall_cons in Hvalid as [_ ?].
  - split; [done|]. intros Hvalid. apply Forall_cons in Hvalid as [Hnode _].
    apply index_None in Hi. tauto.
Qed.

Lemma range_resources_absent k keys resources zs nodes h :
  (∀ node z, node ∈ nodes → index zs node = Some z → entry h (Resources z) k = None) →
  ∀ r, entry (range_resources keys resources zs nodes h).2 r k = entry h r k.
Proof.
  intros Habs.
  apply (range_resources_inv (λ h', ∀ r, entry h' r k = entry h r k)); [|done].
  intros h0 z node k' a v _ Hin Hi He _ Hcol r.
  rewrite <- Hcol. apply entry_store_ne.
  destruct (decide (k' = k)) as [->|Hne]; [|by right].
  rewrite Hcol, (Habs node z Hin Hi) in He. done.
Qed.

Lemma listed_Permutation nodes1 nodes2 i :
  nodes1 ≡ₚ nodes2 → listed nodes1 i = listed nodes2 i.
Proof. intros Hp. unfold listed. apply bool_decide_ext. by rewrite Hp. Qed.

Lemma listed_available_le_total h zs nodes k :
  (∀ i, 0 ≤ zone_available h zs k i) →
  0 ≤ listed_available h zs nodes k ≤ total_available h zs k.
Proof.
  intros Hpos. unfold listed_available, total_available. split.
  - apply sum_upto_nonneg. intros i _. destruct (listed nodes i); [apply Hpos | lia].
  - apply sum_upto_le. intros i _. specialize (Hpos i). destruct (listed nodes i); lia.
Qed.

(** What a call takes in total, under each name. *)
Lemma subtract_taken keys resources zs nodes h k :
  range_order keys h resources → valid_order zs nodes → own_maps zs →
  nonneg_map h resources → nonneg_zones h zs →
  total_available (subtractFromNUMAs keys resources zs nodes h).2 zs k =
  total_available h zs k -
  match entry h resources k with
  | Some q => Z.min q (listed_available h zs nodes k)
  | None => 0
  end.
Proof.
  intros Hkeys Hvalid Hown Hreq Hzones. unfold subtractFromNUMAs.
  destruct (entry h resources k) as [q|] eqn:Hq.
  - apply range_resources_conserve; try done.
    + by apply (range_order_NoDup keys h resources).
    + apply (range_order_elem_of keys h resources k Hkeys). by eexists.
    + by apply (nonneg_map_entry h resources k q).
    + intros i. by apply nonneg_zones_available.
  - rewrite (total_available_col h (range_resources keys resources zs nodes h).2 zs k);
      [lia|].
    intros r. apply range_resources_other.
    intros Hin. apply (range_order_elem_of keys h resources k Hkeys) in Hin.
    rewrite Hq in Hin. by destruct Hin.
Qed.

(** * The properties of subtractFromNUMAs *)

(** Conditions on concrete arguments are decided by computation. *)
Ltac decide_condition :=
  unfold range_order, valid_order, own_maps, nonneg_zones, nonneg_map,
         zero_request, absent_from_listed;
  compute_done.


(** C1 (conservation).  For a request and an inventory of non-negative
    amounts in which each zone owns its map, and an order list of valid zone
    ids: the call returns, and for every requested resource name the total
    taken from all zones is the smaller of the requested amount and the total
    that the listed zones hold under that name (a zone without an entry holds
    nothing); it exceeds neither that listed total nor the total of the whole
    inventory before the call.  Under a name that is not requested nothing is
    taken. *)
Theorem subtract_conservation keys resources zs nodes h :
  range_order keys h resources → valid_order zs nodes → own_maps zs →
  nonneg_map h resources → nonneg_zones h zs →
  (subtractFromNUMAs keys resources zs nodes h).1 = true ∧
  ∀ k,
    let taken :=
      total_subtracted h (subtractFromNUMAs keys resources zs nodes h).2 zs k in
    match entry h resources k with
    | Some q => taken = Z.min q (listed_available h zs nodes k)
    | None => taken = 0
    end ∧
    taken ≤ listed_available h zs nodes k ∧
    taken ≤ total_available h zs k.
Proof.
  intros Hkeys Hvalid Hown Hreq Hzones.
  split; [by apply range_resources_total|].
  intros k. simpl. rewrite total_subtracted_eq.
  rewrite (subtract_taken keys resources zs nodes h k) by done.
  pose proof (nonneg_zones_available h zs k) as Hpos.
  specialize (listed_available_le_total h zs nodes k (λ i, Hpos i Hzones)) as [HL HT].
  destruct (entry h resources k) as [q|] eqn:Hq.
  - pose proof (nonneg_map_entry h resources k q Hreq Hq). lia.
  - lia.
Qed.

Lemma subtract_conservation_witness :
  (subtractFromNUMAs [cpu; memory] 0%nat zones2 [0; 1] heap_pod).1 = true ∧
  ∀ k,
    let taken :=
      total_subtracted heap_pod
        (subtractFromNUMAs [cpu; memory] 0%nat zones2 [0; 1] heap_pod).2 zones2 k in
    match entry heap_pod 0%nat k with
    | Some q => taken = Z.min q (listed_available heap_pod zones2 [0; 1] k)
    | None => taken = 0
    end ∧
    taken ≤ listed_available heap_pod zones2 [0; 1] k ∧
    taken ≤ total_available heap_pod zones2 k.
Proof.
  apply (subtract_conservation [cpu; memory] 0%nat zones2 [0; 1] heap_pod).
  - decide_condition.
  - decide_condition.
  - decide_condition.
  - decide_condition.
  - decide_condition.
Defined.

(** C2 (no negative zone amounts).  When no zone holds a negative amount
    before a call, none does after it, whatever is requested and whether or
    not the call runs into a panic: every amount the loop writes is zero or a
    positive difference.  Step by step, for a non-zero remaining request [q]
    and a zone holding [a]: when [q = a] the entry is set to exactly zero and
    is still there; when [q > a] the entry is set to zero and [q - a] is
    carried to the next zone in the order; when [q < a] the entry becomes
    [a - q] and nothing remains of the request. *)
Theorem subtract_zones_nonneg keys resources zs nodes h :
  nonneg_zones h zs →
  nonneg_zones (subtractFromNUMAs keys resources zs nodes h).2 zs ∧
  (∀ k node rest q z,
      q ≠ 0 → index zs node = Some z → entry h (Resources z) k = Some q →
      range_nodes k zs (node :: rest) q h = (Some 0, store h (Resources z) k 0) ∧
      entry (store h (Resources z) k 0) (Resources z) k = Some 0) ∧
  (∀ k node rest q a z,
      q ≠ 0 → index zs node = Some z → entry h (Resources z) k = Some a → a < q →
      range_nodes k zs (node :: rest) q h =
      range_nodes k zs rest (q - a) (store h (Resources z) k 0)) ∧
  (∀ k node rest q a z,
      q ≠ 0 → index zs node = Some z → entry h (Resources z) k = Some a → q < a →
      range_nodes k zs (node :: rest) q h = (Some 0, store h (Resources z) k (a - q))).
Proof.
  intros Hzones. split; [|split; [|split]].
  - unfold subtractFromNUMAs.
    apply (range_resources_inv (λ h', nonneg_zones h' zs)); [|done].
    intros h0 z node k a v _ _ _ _ Hv Hz. unfold nonneg_zones in *.
    eapply Forall_impl; [exact Hz|]. intros z' Hz'. by apply nonneg_map_store.
  - intros k node rest q z Hq Hi He. split; [|apply entry_store_eq].
    rewrite range_nodes_cons, decide_False, Hi, He by done.
    rewrite decide_True by lia. rewrite Z.sub_diag. apply range_nodes_zero.
  - intros k node rest q a z Hq Hi He Hlt.
    rewrite range_nodes_cons, decide_False, Hi, He by done.
    by rewrite decide_True by lia.
  - intros k node rest q a z Hq Hi He Hlt.
    rewrite range_nodes_cons, decide_False, Hi, He by done.
    rewrite decide_False by lia. apply range_nodes_zero.
Qed.

Lemma subtract_zones_nonneg_witness :
  nonneg_zones (subtractFromNUMAs [cpu] 0%nat zones1 [0] heap_equal).2 zones1 ∧
  entry (subtractFromNUMAs [cpu] 0%nat zones1 [0] heap_equal).2 1%nat cpu = Some 0.
Proof.
  split.
  - apply (subtract_zones_nonneg [cpu] 0%nat zones1 [0] heap_equal).
    decide_condition.
  - vm_compute. reflexivity.
Defined.

(** C3 (order sensitivity).  Two calls with the same request on the same
    inventory (non-negative amounts, each zone owning its map), whose order
    lists are permutations of one another and name valid zone ids, and
    whatever order the request's names come up in: both return, and under
    every resource name they leave the same total across all zones and have
    taken the same total.  The residuals zone by zone may differ; the witness
    shows an instance where they do. *)
Theorem subtract_order_aggregate keys1 keys2 resources zs nodes1 nodes2 h :
  range_order keys1 h resources → range_order keys2 h resources →
  nodes1 ≡ₚ nodes2 → valid_order zs nodes1 → own_maps zs →
  nonneg_map h resources → nonneg_zones h zs →
  (subtractFromNUMAs keys1 resources zs nodes1 h).1 = true ∧
  (subtractFromNUMAs keys2 resources zs nodes2 h).1 = true ∧
  ∀ k,
    total_available (subtractFromNUMAs keys1 resources zs nodes1 h).2 zs k =
    total_available (subtractFromNUMAs keys2 resources zs nodes2 h).2 zs k ∧
    total_subtracted h (subtractFromNUMAs keys1 resources zs nodes1 h).2 zs k =
    total_subtracted h (subtractFromNUMAs keys2 resources zs nodes2 h).2 zs k.
Proof.
  intros Hkeys1 Hkeys2 Hperm Hvalid1 Hown Hreq Hzones.
  assert (Hvalid2 : valid_order zs nodes2).
  { unfold valid_order in *. by rewrite <- Hperm. }
  split; [by apply range_resources_total|].
  split; [by apply range_resources_total|].
  intros k. rewrite !total_subtracted_eq.
  rewrite (subtract_taken keys1 resources zs nodes1 h k) by done.
  rewrite (subtract_taken keys2 resources zs nodes2 h k) by done.
  assert (listed_available h zs nodes1 k = listed_available h zs nodes2 k) as ->; [|done].
  unfold listed_available. apply sum_upto_ext. intros i _.
  by rewrite (listed_Permutation nodes1 nodes2 i Hperm).
Qed.

Lemma subtract_order_aggregate_witness :
  ((subtractFromNUMAs [cpu; memory] 0%nat zones2 [0; 1] heap_pod).1 = true ∧
   (subtractFromNUMAs [memory; cpu] 0%nat zones2 [1; 0] heap_pod).1 = true ∧
   ∀ k,
     total_available
       (subtractFromNUMAs [cpu; memory] 0%nat zones2 [0; 1] heap_pod).2 zones2 k =
     total_available
       (subtractFromNUMAs [memory; cpu] 0%nat zones2 [1; 0] heap_pod).2 zones2 k ∧
     total_subtracted heap_pod
       (subtractFromNUMAs [cpu; memory] 0%nat zones2 [0; 1] heap_pod).2 zones2 k =
     total_subtracted heap_pod
       (subtractFromNUMAs [memory; cpu] 0%nat zones2 [1; 0] heap_pod).2 zones2 k) ∧
  entry (subtractFromNUMAs [cpu; memory] 0%nat zones2 [0; 1] heap_pod).2 1%nat cpu
    = Some 0 ∧
  entry (subtractFromNUMAs [memory; cpu] 0%nat zones2 [1; 0] heap_pod).2 1%nat cpu
    = Some 2.
Proof.
  split; [|split; vm_compute; reflexivity].
  apply (subtract_order_aggregate [cpu; memory] [memory; cpu] 0%nat zones2
           [0; 1] [1; 0] heap_pod).
  - decide_condition.
  - decide_condition.
  - compute_done.
  - decide_condition.
  - decide_condition.
  - decide_condition.
  - decide_condition.
Defined.

(** The loops that read the two slices out of memory do what the loops over
    the lists do, and give the slices back as they were. *)
Lemma range_nodes_mem_spec k zs rest : ∀ before q h,
  range_nodes_mem k (length before) (length rest) q (mkMem h zs (before ++ rest)) =
  ((range_nodes k zs rest q h).1,
   mkMem (range_nodes k zs rest q h).2 zs (before ++ rest)).
Proof.
  induction rest as [|node rest IH]; intros before q h; [done|].
  assert (Hnext : ∀ q' h',
            range_nodes_mem k (S (length before)) (length rest) q'
              (mkMem h' zs (before ++ node :: rest)) =
            ((range_nodes k zs rest q' h').1,
             mkMem (range_nodes k zs rest q' h').2 zs (before ++ node :: rest))).
  { intros q' h'. specialize (IH (before ++ [node]) q' h').
    rewrite length_app, Nat.add_1_r, <- app_assoc in IH. exact IH. }
  cbn [length range_nodes_mem range_nodes mem_nodes mem_zones mem_maps].
  rewrite list_lookup_middle by done.
  destruct (IsZero q); [done|].
  destruct (index zs node) as [z|]; [|done].
  destruct (entry h (Resources z) k) as [a|]; [|apply Hnext].
  cbn zeta. unfold write_map. cbn [mem_nodes mem_zones mem_maps].
  destruct (Cmp q a =? 0); [apply Hnext|].
  destruct (Cmp q a =? 1); [apply Hnext|].
  destruct (Cmp q a =? -1); apply Hnext.
Qed.

Lemma range_resources_mem_spec keys resources zs nodes : ∀ h,
  range_resources_mem keys resources (mkMem h zs nodes) =
  ((range_resources keys resources zs nodes h).1,
   mkMem (range_resources keys resources zs nodes h).2 zs nodes).
Proof.
  induction keys as [|k later IH]; intros h; [done|].
  cbn [range_resources_mem range_resources mem_nodes mem_maps].
  destruct (entry h resources k) as [q|]; [|apply IH].
  pose proof (range_nodes_mem_spec k zs nodes [] q h) as Hinner.
  cbn [length app] in Hinner. rewrite Hinner.
  destruct (range_nodes k zs nodes q h) as [[q'|] h']; [apply IH | done].
Qed.

(** C4 (frame), as amended.  A call leaves the order list and the inventory
    slice as they were, and does to the map objects what the loops over the
    two lists do.  All it does to the map objects is a sequence of writes to
    entries that exist, in the maps of listed zones: every map object that is
    not the map of a listed zone is as it was, no map gains or loses a name,
    and nothing changes under a name the call does not iterate over.  The
    map behind the request is as it was after the call provided it is not
    itself the map of a listed zone: the remaining request lives in the
    loop's local [quantity] and is never written back.  All this holds also
    when the call panics. *)
Theorem subtract_frame keys resources m :
  mem_nodes (subtractFromNUMAs_mem keys resources m).2 = mem_nodes m ∧
  mem_zones (subtractFromNUMAs_mem keys resources m).2 = mem_zones m ∧
  ((subtractFromNUMAs_mem keys resources m).1,
   mem_maps (subtractFromNUMAs_mem keys resources m).2) =
    subtractFromNUMAs keys resources (mem_zones m) (mem_nodes m) (mem_maps m) ∧
  ledger_writes (mem_zones m) (mem_nodes m) keys (mem_maps m)
    (mem_maps (subtractFromNUMAs_mem keys resources m).2) ∧
  (∀ r, r ∉ listed_refs (mem_zones m) (mem_nodes m) →
        mem_maps (subtractFromNUMAs_mem keys resources m).2 !! r = mem_maps m !! r) ∧
  (∀ r k, is_Some (entry (mem_maps (subtractFromNUMAs_mem keys resources m).2) r k) ↔
          is_Some (entry (mem_maps m) r k)) ∧
  (∀ r k, k ∉ keys →
          entry (mem_maps (subtractFromNUMAs_mem keys resources m).2) r k =
          entry (mem_maps m) r k) ∧
  (resources ∉ listed_refs (mem_zones m) (mem_nodes m) →
   load (mem_maps (subtractFromNUMAs_mem keys resources m).2) resources =
   load (mem_maps m) resources).
Proof.
  destruct m as [h zs nodes]. unfold subtractFromNUMAs_mem, subtractFromNUMAs.
  rewrite range_resources_mem_spec. cbn [fst snd mem_nodes mem_zones mem_maps].
  split; [done|]. split; [done|].
  split; [by destruct (range_resources keys resources zs nodes h)|].
  split; [|split; [|split; [|split]]].
  - apply range_resources_writes.
  - intros r Hr. by apply range_resources_frame.
  - intros r k. apply range_resources_names.
  - intros r k Hk. by apply range_resources_other.
  - intros Hr. unfold load. by rewrite range_resources_frame.
Qed.

Lemma subtract_frame_witness :
  mem_nodes (subtractFromNUMAs_mem [cpu; memory] 0%nat mem_pod).2 = [0; 1] ∧
  load (mem_maps (subtractFromNUMAs_mem [cpu; memory] 0%nat mem_pod).2) 0%nat =
  load heap_pod 0%nat ∧
  entry (mem_maps (subtractFromNUMAs_mem [cpu; memory] 0%nat mem_pod).2) 2%nat cpu =
  Some 2.
Proof.
  destruct (subtract_frame [cpu; memory] 0%nat mem_pod)
    as (Hnodes & _ & _ & _ & _ & _ & _ & Hrequest).
  split; [exact Hnodes|]. split; [|vm_compute; reflexivity].
  apply Hrequest. compute_done.
Defined.

(** The claim without the proviso fails.  In the call
    [subtractFromNUMAs(numaNodes[0].Resources, numaNodes, 0)] the request is
    the map of zone 0, {cpu: 4, memory: 8}: each amount is found equal to the
    amount of the zone, the zone's entry is set to zero, and the entries of
    the caller's request map are zero after the call. *)
Lemma subtract_frame_counterexample :
  range_order [cpu; memory] (mem_maps mem_alias) 1%nat ∧
  valid_order (mem_zones mem_alias) (mem_nodes mem_alias) ∧
  (subtractFromNUMAs_mem [cpu; memory] 1%nat mem_alias).1 = true ∧
  entry (mem_maps mem_alias) 1%nat cpu = Some 4 ∧
  entry (mem_maps mem_alias) 1%nat memory = Some 8 ∧
  entry (mem_maps (subtractFromNUMAs_mem [cpu; memory] 1%nat mem_alias).2) 1%nat cpu
    = Some 0 ∧
  entry (mem_maps (subtractFromNUMAs_mem [cpu; memory] 1%nat mem_alias).2) 1%nat memory
    = Some 0 ∧
  load (mem_maps (subtractFromNUMAs_mem [cpu; memory] 1%nat mem_alias).2) 1%nat ≠
  load (mem_maps mem_alias) 1%nat.
Proof.
  split; [decide_condition|]. split; [decide_condition|].
  repeat (split; [vm_compute; reflexivity|]).
  intros Heq.
  assert (Hcpu : load (mem_maps (subtractFromNUMAs_mem [cpu; memory] 1%nat mem_alias).2)
                   1%nat !! cpu = Some 0) by (vm_compute; reflexivity).
  rewrite Heq in Hcpu. vm_compute in Hcpu. discriminate Hcpu.
Qed.

(** C5 (zero requests).  A call whose requested amounts are all zero returns
    and leaves the heap, and with it the zone inventory, exactly as it was;
    this needs no condition on the order list, because the loop stops before
    it looks at a zone.  More generally the inner loop stops at once when the
    remaining request is zero, and within any call nothing changes under a
    name whose requested amount is zero. *)
Theorem subtract_zero_request keys resources zs nodes h :
  (zero_request h resources →
   subtractFromNUMAs keys resources zs nodes h = (true, h)) ∧
  (∀ k, range_nodes k zs nodes 0 h = (Some 0, h)) ∧
  (∀ k, entry h resources k = Some 0 →
        ∀ r, entry (subtractFromNUMAs keys resources zs nodes h).2 r k = entry h r k).
Proof.
  unfold subtractFromNUMAs. split; [|split].
  - intros Hzero. induction keys as [|k later IH]; [done|].
    simpl. destruct (entry h resources k) as [q|] eqn:Hq; [|done].
    rewrite (Hzero k q Hq), range_nodes_zero. done.
  - intros k. apply range_nodes_zero.
  - intros k Hq r. by apply range_resources_zero_kind.
Qed.

Lemma subtract_zero_request_witness :
  subtractFromNUMAs [cpu; memory] 0%nat zones2 [0; 1] heap_zero = (true, heap_zero).
Proof.
  apply (subtract_zero_request [cpu; memory] 0%nat zones2 [0; 1] heap_zero).
  decide_condition.
Defined.

(** C6 (zones without an entry).  A zone whose map has no entry under the
    name being subtracted is passed over: the loop goes on to the next zone
    with the same remaining request and the same heap.  No call creates an
    entry: a map that lacks a name before the call lacks it after.  When no
    listed zone has an entry under a requested name, nothing changes under
    that name in any map, and the loop for that name ends with the requested
    amount unreduced (given valid zone ids, so that it ends normally). *)
Theorem subtract_missing_entry keys resources zs nodes h :
  (∀ k node rest q z,
      index zs node = Some z → entry h (Resources z) k = None →
      range_nodes k zs (node :: rest) q h = range_nodes k zs rest q h) ∧
  (∀ r k, entry h r k = None →
          entry (subtractFromNUMAs keys resources zs nodes h).2 r k = None) ∧
  (∀ k,
      absent_from_listed h zs nodes k →
      (∀ r, entry (subtractFromNUMAs keys resources zs nodes h).2 r k = entry h r k) ∧
      (∀ q, (range_nodes k zs nodes q h).2 = h) ∧
      (valid_order zs nodes → ∀ q, range_nodes k zs nodes q h = (Some q, h))).
Proof.
  unfold subtractFromNUMAs. split; [|split].
  - intros k node rest q z Hi He.
    rewrite range_nodes_cons, Hi, He.
    destruct (decide (q = 0)) as [->|]; [by rewrite range_nodes_zero | done].
  - intros r k He.
    pose proof (range_resources_names keys resources zs nodes h r k) as Hn.
    destruct (entry (range_resources keys resources zs nodes h).2 r k); [|done].
    rewrite He in Hn. destruct Hn as [Hn _]. by destruct Hn.
  - intros k Habs0.
    assert (Habs : ∀ node z, node ∈ nodes → index zs node = Some z →
                             entry h (Resources z) k = None).
    { intros node z Hin Hi. unfold absent_from_listed in Habs0.
      rewrite Forall_forall in Habs0. apply Habs0.
      by apply (elem_of_listed_refs zs nodes node). }
    split; [|split].
    + by apply range_resources_absent.
    + intros q. by apply range_nodes_absent.
    + intros Hvalid q.
      destruct (range_nodes_absent k zs nodes q h Habs) as [Hh Hq].
      specialize (Hq Hvalid).
      destruct (range_nodes k zs nodes q h) as [o h']. simpl in *. by subst.
Qed.

Lemma subtract_missing_entry_witness :
  range_nodes gpu zones2 [0; 1] 1 heap_gpu = (Some 1, heap_gpu) ∧
  entry (subtractFromNUMAs [cpu; gpu] 0%nat zones2 [0; 1] heap_gpu).2 1%nat gpu = None.
Proof.
  assert (Habs : absent_from_listed heap_gpu zones2 [0; 1] gpu).
  { decide_condition. }
  destruct (subtract_missing_entry [cpu; gpu] 0%nat zones2 [0; 1] heap_gpu)
    as (_ & Hnone & Hkind).
  split.
  - apply (Hkind gpu Habs). decide_condition.
  - apply Hnone. vm_compute. reflexivity.
Defined.

(** C10 (indexing).  The loop indexes the inventory with each listed id as
    it comes, with no bounds check.  When every listed id is within
    [0, length of the inventory) the call returns normally, whatever the
    request and the heap.  An id outside that range makes the index
    expression fail; the loop panics there as soon as it reaches the id with a
    non-zero remaining request, and so does the call when that happens for
    the first name and the first listed id. *)
Theorem subtract_index_safety keys resources zs nodes h :
  (valid_order zs nodes → (subtractFromNUMAs keys resources zs nodes h).1 = true) ∧
  (∀ node, ¬ (0 ≤ node < Z.of_nat (length zs)) →
      index zs node = None ∧
      (∀ k rest q, q ≠ 0 → range_nodes k zs (node :: rest) q h = (None, h)) ∧
      (∀ k later rest q, entry h resources k = Some q → q ≠ 0 →
          subtractFromNUMAs (k :: later) resources zs (node :: rest) h = (false, h))).
Proof.
  split.
  - intros Hvalid. by apply range_resources_total.
  - intros node Hnode. apply index_None in Hnode.
    assert (Hpanic : ∀ k rest q, q ≠ 0 →
              range_nodes k zs (node :: rest) q h = (None, h)).
    { intros k rest q Hq. by rewrite range_nodes_cons, decide_False, Hnode. }
    split; [done|]. split; [done|].
    intros k later rest q He Hq. unfold subtractFromNUMAs.
    cbn [range_resources]. by rewrite He, Hpanic.
Qed.

Lemma subtract_index_safety_witness :
  (subtractFromNUMAs [cpu; memory] 0%nat zones2 [0; 1] heap_pod).1 = true ∧
  subtractFromNUMAs [cpu; memory] 0%nat zones2 [2; 0] heap_pod = (false, heap_pod).
Proof.
  destruct (subtract_index_safety [cpu; memory] 0%nat zones2 [0; 1] heap_pod)
    as (Hsafe & Hout).
  split.
  - apply Hsafe. decide_condition.
  - destruct (Hout 2) as (_ & _ & Hcall); [simpl; lia|].
    apply (Hcall cpu [memory] [0] 6); [|done].
    vm_compute. reflexivity.
Defined.

(** * The score table and the constructor *)

(** ** The weight map *)

Lemma fillWeights_snoc resources resource :
  fillWeights (resources ++ [resource]) =
  <[apiconfig.Name resource := apiconfig.Weight resource]> (fillWeights resources).
Proof. unfold fillWeights. by rewrite foldl_app. Qed.

(** Every entry of the weight map comes from a listed resource. *)
Lemma fillWeights_lookup_Some resources name w :
  fillWeights resources !! name = Some w →
  ∃ resource, resource ∈ resources ∧
              apiconfig.Name resource = name ∧ apiconfig.Weight resource = w.
Proof.
  induction resources as [|resource resources IH] using rev_ind.
  - unfold fillWeights. simpl. by rewrite lookup_empty.
  - rewrite fillWeights_snoc, lookup_insert.
    case_decide as Hname.
    + intros [= <-]. exists resource. split; [|done].
      apply elem_of_app. right. by left.
    + intros Hw. destruct (IH Hw) as (r & Hin & Hr). exists r. split; [|done].
      apply elem_of_app. by left.
Qed.

(** Every listed resource has an entry under its name. *)
Lemma fillWeights_lookup_listed resources resource :
  resource ∈ resources → is_Some (fillWeights resources !! apiconfig.Name resource).
Proof.
  induction resources as [|r resources IH] using rev_ind.
  - intros Hin. by apply elem_of_nil in Hin.
  - intros Hin. rewrite fillWeights_snoc, lookup_insert.
    case_decide as Hname; [by eexists|].
    apply IH. apply elem_of_app in Hin as [Hin|Hin]; [done|].
    apply list_elem_of_singleton in Hin. by subst.
Qed.

(** When no name is listed twice, the entry is the listed weight. *)
Lemma fillWeights_lookup_NoDup resources resource :
  NoDup (apiconfig.Name <$> resources) → resource ∈ resources →
  fillWeights resources !! apiconfig.Name resource = Some (apiconfig.Weight resource).
Proof.
  induction resources as [|r resources IH] using rev_ind.
  - intros _ Hin. by apply elem_of_nil in Hin.
  - rewrite fmap_app. intros Hnd Hin.
    apply NoDup_app in Hnd as (Hnd & Hfresh & _).
    rewrite fillWeights_snoc, lookup_insert.
    apply elem_of_app in Hin as [Hin|Hin].
    + case_decide as Hname; [|by apply IH].
      exfalso. apply (Hfresh (apiconfig.Name resource)).
      * apply list_elem_of_fmap. by exists resource.
      * rewrite <- Hname. simpl. by left.
    + apply list_elem_of_singleton in Hin. subst. by rewrite decide_True.
Qed.

(** ** The six policies *)

Lemma policy_inj mode scope mode' scope' :
  policy mode scope = policy mode' scope' → mode = mode' ∧ scope = scope'.
Proof. by destruct mode, scope, mode', scope'. Qed.

Lemma literal_keys `{Collaborators} :
  leastNUMAscoreHandlers_literal.*1 =
  [ SingleNUMANodePodLevel; SingleNUMANodeContainerLevel;
    BestEffortPodLevel; BestEffortContainerLevel;
    RestrictedPodLevel; RestrictedContainerLevel ].
Proof. reflexivity. Qed.

Lemma elem_of_literal_keys `{Collaborators} p :
  p ∈ leastNUMAscoreHandlers_literal.*1 ↔ ∃ mode scope, p = policy mode scope.
Proof.
  rewrite literal_keys. split.
  - intros Hin. repeat (apply elem_of_cons in Hin as [->|Hin]).
    + by exists SingleNUMANode, PodLevel.
    + by exists SingleNUMANode, ContainerLevel.
    + by exists BestEffort, PodLevel.
    + by exists BestEffort, ContainerLevel.
    + by exists Restricted, PodLevel.
    + by exists Restricted, ContainerLevel.
    + by apply elem_of_nil in Hin.
  - intros (mode & scope & ->). destruct mode, scope; simpl; set_solver.
Qed.

Lemma literal_NoDup `{Collaborators} : NoDup (leastNUMAscoreHandlers_literal.*1).
Proof. rewrite literal_keys. compute_done. Qed.

(** C7 (the least-NUMA score table).  The map literal has six lines, one for
    each of the six policies and no two for the same policy; the table built
    from it has six entries; looking up the policy of any mode and scope
    finds the pod-scope scorer for the pod level and the container-scope
    scorer for the container level, and that is the only function the literal
    pairs with the policy; a string that is none of the six policies finds
    nothing; and the six policies are six different keys. *)
Theorem leastNUMAscoreHandlers_total `{Collaborators} :
  NoDup (leastNUMAscoreHandlers_literal.*1) ∧
  size leastNUMAscoreHandlers = 6%nat ∧
  (∀ mode scope,
      leastNUMAscoreHandlers !! policy mode scope = Some (leastNUMAScore scope)) ∧
  (∀ mode scope f,
      (policy mode scope, f) ∈ leastNUMAscoreHandlers_literal →
      f = leastNUMAScore scope) ∧
  (∀ p, is_Some (leastNUMAscoreHandlers !! p) ↔ ∃ mode scope, p = policy mode scope) ∧
  (∀ mode scope mode' scope',
      policy mode scope = policy mode' scope' → mode = mode' ∧ scope = scope').
Proof.
  assert (Hlookup : ∀ mode scope,
            leastNUMAscoreHandlers !! policy mode scope = Some (leastNUMAScore scope)).
  { intros mode scope. unfold leastNUMAscoreHandlers.
    apply elem_of_list_to_map; [apply literal_NoDup|].
    unfold leastNUMAscoreHandlers_literal.
    destruct mode, scope; simpl; set_solver. }
  split; [apply literal_NoDup|]. split; [|split; [done|split; [|split]]];
    [| | |apply policy_inj].
  - unfold leastNUMAscoreHandlers.
    rewrite map_size_list_to_map by apply literal_NoDup. reflexivity.
  - intros mode scope f Hin.
    apply (elem_of_list_to_map_1 (M := gmap TopologyManagerPolicy)) in Hin;
      [|apply literal_NoDup].
    fold leastNUMAscoreHandlers in Hin. rewrite Hlookup in Hin. by injection Hin.
  - intros p. rewrite <- elem_of_literal_keys. unfold leastNUMAscoreHandlers. split.
    + intros [f Hf]. apply elem_of_list_to_map_2 in Hf.
      apply list_elem_of_fmap. by exists (p, f).
    + intros Hin. destruct (list_to_map leastNUMAscoreHandlers_literal !! p) eqn:Hp;
        [by eexists|].
      by apply not_elem_of_list_to_map in Hp.
Qed.

(** ** New *)

(** What a call of [New] that returns a plugin went through. *)
Lemma New_Some_inv `{Collaborators} args handle tm err :
  New args handle = Returns (Some tm, err) →
  err = None ∧
  ∃ cfg,
    args = MatchArgs (Some cfg) ∧
    initNodeTopologyInformer (Some cfg) handle = (nrtCache tm, None) ∧
    filterHandlers tm = newFilterHandlers ∧
    resourceToWeightMap tm =
      fillWeights (apiconfig.Resources (apiconfig.ScoringStrategy_ cfg)) ∧
    ((apiconfig.Type_ (apiconfig.ScoringStrategy_ cfg) = apiconfig.LeastNUMANodes ∧
      scoringHandlers tm = leastNUMAscoreHandlers) ∨
     (apiconfig.Type_ (apiconfig.ScoringStrategy_ cfg) ≠ apiconfig.LeastNUMANodes ∧
      ∃ fn,
        getScoringStrategyFunction (apiconfig.Type_ (apiconfig.ScoringStrategy_ cfg))
          = (fn, None) ∧
        scoringHandlers tm =
          newScoringHandlers fn
            (fillWeights (apiconfig.Resources (apiconfig.ScoringStrategy_ cfg))))).
Proof.
  unfold New. destruct args as [tcfg|typeName]; [|done].
  destruct (initNodeTopologyInformer tcfg handle) as [cache [e|]] eqn:Hinit; [done|].
  destruct tcfg as [cfg|]; [|done].
  destruct (decide (apiconfig.Type_ (apiconfig.ScoringStrategy_ cfg)
                    = apiconfig.LeastNUMANodes)) as [Hleast|Hother].
  - intros [= <- <-]. split; [done|]. exists cfg. simpl.
    repeat split; try done. by left.
  - destruct (getScoringStrategyFunction (apiconfig.Type_ (apiconfig.ScoringStrategy_ cfg)))
      as [fn [e|]] eqn:Hget; [done|].
    intros [= <- <-]. split; [done|]. exists cfg. simpl.
    repeat split; try done. right. split; [done|]. by exists fn.
Qed.

(** C8 (construction errors).  [New] returns the nil plugin together with an
    error in each of the three failure cases: the arguments are not a
    [NodeResourceTopologyMatchArgs]; the topology informer cannot be set up;
    the scoring strategy is not [LeastNUMANodes] and no strategy function is
    known for it.  A plugin is returned only after all three checks have
    passed, then with the nil error, built from the informer's cache and the
    filter table; and whenever [New] returns, it returns either a plugin or
    an error, never both and never neither. *)
Theorem New_fails_without_plugin `{Collaborators} args handle :
  (∀ typeName, args = OtherObject typeName →
      New args handle = Returns (None, Some (wrongArgs typeName))) ∧
  (∀ tcfg cache e,
      args = MatchArgs tcfg →
      initNodeTopologyInformer tcfg handle = (cache, Some e) →
      New args handle = Returns (None, Some e)) ∧
  (∀ cfg cache fn e,
      args = MatchArgs (Some cfg) →
      initNodeTopologyInformer (Some cfg) handle = (cache, None) →
      apiconfig.Type_ (apiconfig.ScoringStrategy_ cfg) ≠ apiconfig.LeastNUMANodes →
      getScoringStrategyFunction (apiconfig.Type_ (apiconfig.ScoringStrategy_ cfg))
        = (fn, Some e) →
      New args handle = Returns (None, Some e)) ∧
  (∀ tm err,
      New args handle = Returns (Some tm, err) →
      err = None ∧
      ∃ cfg,
        args = MatchArgs (Some cfg) ∧
        initNodeTopologyInformer (Some cfg) handle = (nrtCache tm, None) ∧
        filterHandlers tm = newFilterHandlers ∧
        (apiconfig.Type_ (apiconfig.ScoringStrategy_ cfg) = apiconfig.LeastNUMANodes ∨
         ∃ fn,
           getScoringStrategyFunction (apiconfig.Type_ (apiconfig.ScoringStrategy_ cfg))
             = (fn, None))) ∧
  (∀ plugin err,
      New args handle = Returns (plugin, err) → plugin = None ↔ is_Some err).
Proof.
  split; [|split; [|split; [|split]]].
  - by intros typeName ->.
  - intros tcfg cache e -> Hinit. unfold New. by rewrite Hinit.
  - intros cfg cache fn e -> Hinit Hother Hget. unfold New.
    rewrite Hinit, decide_False, Hget by done. done.
  - intros tm err Hnew.
    destruct (New_Some_inv args handle tm err Hnew)
      as (-> & cfg & Hargs & Hinit & Hfilter & _ & Hscore).
    split; [done|]. exists cfg. repeat split; try done.
    destruct Hscore as [[Hleast _]|[_ (fn & Hget & _)]]; [by left | right; by exists fn].
  - intros plugin err. unfold New.
    destruct args as [tcfg|typeName].
    + destruct (initNodeTopologyInformer tcfg handle) as [cache [e|]].
      { intros [= <- <-]. split; [by eexists | done]. }
      destruct tcfg as [cfg|]; [|done].
      destruct (decide _).
      { intros [= <- <-]. split; [done | by intros [? ?]]. }
      destruct (getScoringStrategyFunction _) as [fn [e|]].
      * intros [= <- <-]. split; [by eexists | done].
      * intros [= <- <-]. split; [done | by intros [? ?]].
    + intros [= <- <-]. split; [by eexists | done].
Qed.

Lemma New_fails_without_plugin_witness :
  @New testFramework testCollaborators (OtherObject "*v1.Pod") tt =
    Returns (None, Some (wrongArgs "*v1.Pod")) ∧
  @New testFramework testCollaborators argsUnknown tt =
    Returns (None, Some "illegal scoring strategy found").
Proof.
  split.
  - by apply (@New_fails_without_plugin testFramework testCollaborators
                (OtherObject "*v1.Pod") tt).
  - destruct (@New_fails_without_plugin testFramework testCollaborators argsUnknown tt)
      as (_ & _ & Hstrategy & _).
    by apply (Hstrategy
                (apiconfig.mkNodeResourceTopologyMatchArgs
                   (apiconfig.mkScoringStrategy "Fastest" []))
                7%nat "" "illegal scoring strategy found").
Defined.

(** C9 (one scoring strategy).  With arguments of the right type and the
    informer up, [New] builds the plugin, and with it the one score table
    the plugin carries from then on.  When the configured strategy type is
    [LeastNUMANodes], the plugin is returned and its table is the least-NUMA
    table, whatever resources and weights are configured.  Otherwise, when a
    strategy function is found for the type, the plugin is returned and its
    table is [newScoringHandlers] applied to that function and to the weight
    map.  No plugin is returned in any other way.  The weight map, kept by
    the plugin in both cases, is the one filled from the configured
    resources: every listed resource has an entry under its name, every
    entry is the name and weight of a listed resource, the entry of a name
    listed once is the weight listed with it, and a name listed again takes
    the weight listed last. *)
Theorem New_scoring_strategy `{Collaborators} args handle :
  (∀ cfg cache,
      args = MatchArgs (Some cfg) →
      initNodeTopologyInformer (Some cfg) handle = (cache, None) →
      apiconfig.Type_ (apiconfig.ScoringStrategy_ cfg) = apiconfig.LeastNUMANodes →
      New args handle =
      Returns (Some {| filterHandlers := newFilterHandlers;
                       scoringHandlers := leastNUMAscoreHandlers;
                       resourceToWeightMap :=
                         fillWeights (apiconfig.Resources (apiconfig.ScoringStrategy_ cfg));
                       nrtCache := cache |}, None)) ∧
  (∀ cfg cache fn,
      args = MatchArgs (Some cfg) →
      initNodeTopologyInformer (Some cfg) handle = (cache, None) →
      apiconfig.Type_ (apiconfig.ScoringStrategy_ cfg) ≠ apiconfig.LeastNUMANodes →
      getScoringStrategyFunction (apiconfig.Type_ (apiconfig.ScoringStrategy_ cfg))
        = (fn, None) →
      New args handle =
      Returns (Some {| filterHandlers := newFilterHandlers;
                       scoringHandlers :=
                         newScoringHandlers fn
                           (fillWeights
                              (apiconfig.Resources (apiconfig.ScoringStrategy_ cfg)));
                       resourceToWeightMap :=
                         fillWeights (apiconfig.Resources (apiconfig.ScoringStrategy_ cfg));
                       nrtCache := cache |}, None)) ∧
  (∀ tm err,
      New args handle = Returns (Some tm, err) →
      ∃ cfg,
        let strategy := apiconfig.ScoringStrategy_ cfg in
        let resources := apiconfig.Resources strategy in
        args = MatchArgs (Some cfg) ∧
        resourceToWeightMap tm = fillWeights resources ∧
        (apiconfig.Type_ strategy = apiconfig.LeastNUMANodes →
         scoringHandlers tm = leastNUMAscoreHandlers) ∧
        (apiconfig.Type_ strategy ≠ apiconfig.LeastNUMANodes →
         ∃ fn,
           getScoringStrategyFunction (apiconfig.Type_ strategy) = (fn, None) ∧
           scoringHandlers tm = newScoringHandlers fn (fillWeights resources)) ∧
        (∀ resource, resource ∈ resources →
            is_Some (fillWeights resources !! apiconfig.Name resource)) ∧
        (∀ name w, fillWeights resources !! name = Some w →
            ∃ resource, resource ∈ resources ∧
                        apiconfig.Name resource = name ∧
                        apiconfig.Weight resource = w) ∧
        (NoDup (apiconfig.Name <$> resources) →
         ∀ resource, resource ∈ resources →
            fillWeights resources !! apiconfig.Name resource =
            Some (apiconfig.Weight resource)) ∧
        (∀ earlier resource,
            fillWeights (earlier ++ [resource]) !! apiconfig.Name resource =
            Some (apiconfig.Weight resource))).
Proof.
  split; [|split].
  - intros cfg cache -> Hinit Hleast. unfold New.
    by rewrite Hinit, decide_True.
  - intros cfg cache fn -> Hinit Hother Hget. unfold New.
    by rewrite Hinit, decide_False, Hget.
  - intros tm err Hnew.
    destruct (New_Some_inv args handle tm err Hnew)
      as (_ & cfg & Hargs & _ & _ & Hweights & Hscore).
    exists cfg. simpl. split; [done|]. split; [done|].
    split; [|split; [|split; [|split; [|split]]]].
    + intros Hleast. by destruct Hscore as [[_ ?]|[? _]].
    + intros Hother. by destruct Hscore as [[? _]|[_ ?]].
    + intros resource. apply fillWeights_lookup_listed.
    + intros name w. apply fillWeights_lookup_Some.
    + intros Hnd resource. by apply fillWeights_lookup_NoDup.
    + intros earlier resource. by rewrite fillWeights_snoc, lookup_insert_eq.
Qed.

Lemma New_scoring_strategy_witness :
  (∃ tm,
     @New testFramework weightedCollaborators argsLeastNUMA tt =
       Returns (Some tm, None) ∧
     @scoringHandlers testFramework tm =
       @leastNUMAscoreHandlers testFramework weightedCollaborators ∧
     @resourceToWeightMap testFramework tm !! "cpu" = Some 2) ∧
  (∃ tm,
     @New testFramework weightedCollaborators argsMostAllocated tt =
       Returns (Some tm, None) ∧
     @scoringHandlers testFramework tm =
       @newScoringHandlers testFramework weightedCollaborators "MostAllocated"
         (fillWeights [apiconfig.mkResourceSpec "cpu" 2;
                       apiconfig.mkResourceSpec "memory" 1]) ∧
     (λ score : @scoringFn testFramework, score tt tt)
       <$> (@scoringHandlers testFramework tm !! "MostAllocated") = Some (2, tt) ∧
     @resourceToWeightMap testFramework tm !! "memory" = Some 1).
Proof.
  split.
  - destruct (@New_scoring_strategy testFramework weightedCollaborators
                argsLeastNUMA tt) as (Hleast & _ & _).
    eexists. split; [|split].
    + eapply (Hleast _ 7%nat); reflexivity.
    + reflexivity.
    + reflexivity.
  - destruct (@New_scoring_strategy testFramework weightedCollaborators
                argsMostAllocated tt) as (_ & Hweighted & _).
    eexists. split; [|split; [|split]].
    + eapply (Hweighted _ 7%nat "MostAllocated");
        [reflexivity | reflexivity | | reflexivity].
      intros Heq. discriminate Heq.
    + reflexivity.
    + reflexivity.
    + reflexivity.
Defined.

(** * Further properties of the subtraction loop *)

(** ** Scanning in two stretches *)

(** X1.  Scanning an order list that is two lists put together is scanning
    the first and then the second, the second starting from the heap and the
    remaining request the first one ends with; a panic in the first stretch
    ends the scan there. *)
Theorem range_nodes_app k zs nodes1 nodes2 q h :
  range_nodes k zs (nodes1 ++ nodes2) q h =
  match range_nodes k zs nodes1 q h with
  | (Some q', h') => range_nodes k zs nodes2 q' h'
  | (None, h') => (None, h')
  end.
Proof.
  revert q h. induction nodes1 as [|node rest IH]; intros q h; [done|].
  rewrite <- app_comm_cons, !range_nodes_cons.
  destruct (decide (q = 0)) as [->|Hq]; [by rewrite range_nodes_zero|].
  destruct (index zs node) as [z|]; [|done].
  destruct (entry h (Resources z) k) as [a|]; [|apply IH].
  destruct (decide (a ≤ q)); apply IH.
Qed.

(** X2.  The scan panics exactly when it comes to an id outside the
    inventory while something of the request remains: the order list splits
    at such an id, and the scan of the ids before it ends normally with a
    non-zero remainder.  An id outside the inventory that comes after the
    request is met does no harm. *)
Theorem range_nodes_panics_iff k zs nodes q h :
  (range_nodes k zs nodes q h).1 = None ↔
  ∃ before node after q',
    nodes = before ++ node :: after ∧
    index zs node = None ∧
    (range_nodes k zs before q h).1 = Some q' ∧ q' ≠ 0.
Proof.
  split.
  - revert q h. induction nodes as [|node rest IH]; intros q h; [done|].
    rewrite range_nodes_cons.
    destruct (decide (q = 0)) as [->|Hq]; [done|].
    destruct (index zs node) as [z|] eqn:Hi.
    + assert (Hrest : ∀ q1 h1,
                (∀ before, range_nodes k zs (node :: before) q h =
                           range_nodes k zs before q1 h1) →
                (range_nodes k zs rest q1 h1).1 = None →
                ∃ before n after q',
                  node :: rest = before ++ n :: after ∧ index zs n = None ∧
                  (range_nodes k zs before q h).1 = Some q' ∧ q' ≠ 0).
      { intros q1 h1 Hpre Hnone.
        destruct (IH q1 h1 Hnone) as (before & n & after & q' & -> & Hn & Hrun & Hq').
        exists (node :: before), n, after, q'. by rewrite Hpre. }
      destruct (entry h (Resources z) k) as [a|] eqn:He.
      * destruct (decide (a ≤ q)) as [Hle|Hgt]; apply Hrest; intros before.
        -- by rewrite range_nodes_cons, decide_False, Hi, He, decide_True.
        -- by rewrite range_nodes_cons, decide_False, Hi, He, decide_False.
      * apply Hrest. intros before.
        by rewrite range_nodes_cons, decide_False, Hi, He.
    + intros _. by exists [], node, rest, q.
  - intros (before & node & after & q' & -> & Hi & Hrun & Hq').
    revert q h Hrun. induction before as [|n before IH]; intros q h Hrun.
    + injection Hrun as ->. simpl app. by rewrite range_nodes_cons, decide_False, Hi.
    + rewrite <- app_comm_cons. rewrite range_nodes_cons in Hrun |- *.
      destruct (decide (q = 0)) as [->|Hq]; [simpl in Hrun; congruence|].
      destruct (index zs n) as [z|]; [|done].
      destruct (entry h (Resources z) k) as [a|]; [|by apply IH].
      destruct (decide (a ≤ q)); by apply IH.
Qed.

(** ** What is left of the request *)

(** X3.  For a request that is not negative, zones that own their maps and
    hold no negative amount, and valid ids: the scan ends normally; what it
    took from the zones and what is left of the request add up to the
    request; what is left is the request less the smaller of the request and
    the total of the listed zones; and the request is met in full exactly
    when the listed zones hold at least as much. *)
Theorem range_nodes_residual k zs nodes q h :
  own_maps zs → valid_order zs nodes → 0 ≤ q → nonneg_zones h zs →
  ∃ q' h',
    range_nodes k zs nodes q h = (Some q', h') ∧
    q' = q - Z.min q (listed_available h zs nodes k) ∧
    total_subtracted h h' zs k + q' = q ∧
    (q' = 0 ↔ q ≤ listed_available h zs nodes k).
Proof.
  intros Hown Hvalid Hq Hzones.
  destruct (range_nodes_conserve k zs Hown nodes q h Hvalid Hq)
    as (q' & h' & Hrun & Hq' & Htot & _).
  { intros i. by apply nonneg_zones_available. }
  exists q', h'. rewrite total_subtracted_eq.
  repeat split; [done | done | lia | lia | lia].
Qed.

Lemma range_nodes_residual_witness :
  ∃ q' h',
    range_nodes cpu zones2 [1] 6 heap_pod = (Some q', h') ∧
    q' = 6 - Z.min 6 (listed_available heap_pod zones2 [1] cpu) ∧
    total_subtracted heap_pod h' zones2 cpu + q' = 6 ∧
    (q' = 0 ↔ 6 ≤ listed_available heap_pod zones2 [1] cpu).
Proof.
  apply (range_nodes_residual cpu zones2 [1] 6 heap_pod).
  - decide_condition.
  - decide_condition.
  - lia.
  - decide_condition.
Defined.

(** ** One name at a time *)

(** The scan for [k] reads and writes the entries under [k] and nothing
    else: on two heaps that agree under [k] it ends the same way and leaves
    heaps that agree under [k]. *)
Lemma range_nodes_col k zs nodes : ∀ q h1 h2,
  (∀ r, entry h1 r k = entry h2 r k) →
  (range_nodes k zs nodes q h1).1 = (range_nodes k zs nodes q h2).1 ∧
  ∀ r, entry (range_nodes k zs nodes q h1).2 r k =
       entry (range_nodes k zs nodes q h2).2 r k.
Proof.
  induction nodes as [|node rest IH]; intros q h1 h2 Hcol; [done|].
  rewrite !range_nodes_cons.
  destruct (decide (q = 0)); [done|].
  destruct (index zs node) as [z|]; [|done].
  rewrite Hcol.
  assert (Hstore : ∀ v r, entry (store h1 (Resources z) k v) r k =
                          entry (store h2 (Resources z) k v) r k).
  { intros v r. rewrite !entry_store. by destruct (decide _). }
  destruct (entry h2 (Resources z) k) as [a|]; [|by apply IH].
  destruct (decide (a ≤ q)); apply IH; apply Hstore.
Qed.

(** Two heaps with the same map objects and the same entries are the same. *)
Lemma heap_ext (h1 h2 : heap) :
  (∀ r, is_Some (h1 !! r) ↔ is_Some (h2 !! r)) →
  (∀ r k, entry h1 r k = entry h2 r k) →
  h1 = h2.
Proof.
  intros Hdom Hent. apply map_eq. intros r.
  specialize (Hdom r). pose proof (Hent r) as Hr. unfold entry, load in Hr.
  destruct (h1 !! r) as [m1|], (h2 !! r) as [m2|]; simpl in Hr.
  - f_equal. by apply map_eq.
  - destruct Hdom as [Hdom _]. by destruct Hdom.
  - destruct Hdom as [_ Hdom]. by destruct Hdom.
  - done.
Qed.

(** A call creates no map object and drops none. *)
Lemma range_resources_objects keys resources zs nodes h r :
  is_Some ((range_resources keys resources zs nodes h).2 !! r) ↔ is_Some (h !! r).
Proof.
  apply (range_resources_inv (λ h', is_Some (h' !! r) ↔ is_Some (h !! r))); [|done].
  intros h0 z node k a v _ _ _ He _ <-. unfold store.
  destruct (decide (Resources z = r)) as [<-|Hne].
  - rewrite lookup_insert_eq. unfold entry, load in He.
    destruct (h0 !! Resources z); [split; by eexists|].
    simpl in He. by rewrite lookup_empty in He.
  - by rewrite lookup_insert_ne.
Qed.

(** What a call leaves under a name it comes to once. *)
Lemma range_resources_by_name k q resources zs nodes keys : ∀ h,
  valid_order zs nodes → NoDup keys → k ∈ keys →
  entry h resources k = Some q →
  ∀ r, entry (range_resources keys resources zs nodes h).2 r k =
       entry (range_nodes k zs nodes q h).2 r k.
Proof.
  intros h Hvalid. revert h.
  induction keys as [|k0 later IH]; intros h Hnd Hin Hq r; [by apply elem_of_nil in Hin|].
  apply NoDup_cons in Hnd as [Hk0 Hnd]. simpl.
  destruct (decide (k0 = k)) as [->|Hne].
  - rewrite Hq.
    destruct (range_nodes_total k zs nodes q h Hvalid) as [q' Hq'].
    destruct (range_nodes k zs nodes q h) as [[q''|] h1]; [|done].
    by apply range_resources_other.
  - apply elem_of_cons in Hin as [Heq|Hin]; [congruence|].
    destruct (entry h resources k0) as [q0|]; [|by apply IH].
    pose proof (range_nodes_other k0 zs nodes q0 h) as Hother.
    destruct (range_nodes_total k0 zs nodes q0 h Hvalid) as [q' Hq'].
    destruct (range_nodes k0 zs nodes q0 h) as [[q''|] h1]; [|done].
    simpl in Hother.
    rewrite (IH h1) by (done || by rewrite Hother).
    apply range_nodes_col. intros r'. by apply Hother.
Qed.

(** X4.  The names of a request are served independently.  When the ids are
    valid, what a call leaves under a requested name, in every map, is what
    the scan for that name alone leaves when run on the heap as it was
    before the call, with the amount requested under that name. *)
Theorem subtract_by_name keys resources zs nodes h k q :
  range_order keys h resources → valid_order zs nodes →
  entry h resources k = Some q →
  ∀ r, entry (subtractFromNUMAs keys resources zs nodes h).2 r k =
       entry (range_nodes k zs nodes q h).2 r k.
Proof.
  intros Hkeys Hvalid Hq. unfold subtractFromNUMAs.
  apply range_resources_by_name; [done | | | done].
  - by apply (range_order_NoDup keys h resources).
  - apply (range_order_elem_of keys h resources k Hkeys). by eexists.
Qed.

Lemma subtract_by_name_witness :
  entry (subtractFromNUMAs [cpu; memory] 0%nat zones2 [0; 1] heap_pod).2 1%nat memory =
  entry (range_nodes memory zones2 [0; 1] 4 heap_pod).2 1%nat memory.
Proof.
  apply (subtract_by_name [cpu; memory] 0%nat zones2 [0; 1] heap_pod memory 4).
  - decide_condition.
  - decide_condition.
  - vm_compute. reflexivity.
Defined.

(** X5.  The order in which Go hands out the names of the request map does
    not show: with valid ids, any two iteration orders of the request give
    the same outcome and the same heap. *)
Theorem subtract_request_order keys1 keys2 resources zs nodes h :
  range_order keys1 h resources → range_order keys2 h resources →
  valid_order zs nodes →
  subtractFromNUMAs keys1 resources zs nodes h =
  subtractFromNUMAs keys2 resources zs nodes h.
Proof.
  intros Hkeys1 Hkeys2 Hvalid.
  pose proof (range_resources_total keys1 resources zs nodes h Hvalid) as Hok1.
  pose proof (range_resources_total keys2 resources zs nodes h Hvalid) as Hok2.
  assert (Hheap : (subtractFromNUMAs keys1 resources zs nodes h).2 =
                  (subtractFromNUMAs keys2 resources zs nodes h).2).
  { apply heap_ext.
    - intros r. unfold subtractFromNUMAs. by rewrite !range_resources_objects.
    - intros r k. destruct (entry h resources k) as [q|] eqn:Hq.
      + assert (Hin : ∀ keys, range_order keys h resources → NoDup keys ∧ k ∈ keys).
        { intros keys Hkeys. split; [by apply (range_order_NoDup keys h resources)|].
          apply (range_order_elem_of keys h resources k Hkeys). by eexists. }
        destruct (Hin keys1 Hkeys1) as [Hnd1 Hin1].
        destruct (Hin keys2 Hkeys2) as [Hnd2 Hin2].
        unfold subtractFromNUMAs.
        rewrite (range_resources_by_name k q resources zs nodes keys1 h) by done.
        by rewrite (range_resources_by_name k q resources zs nodes keys2 h).
      + unfold subtractFromNUMAs. rewrite !range_resources_other; [done| |].
        * intros Hin. apply (range_order_elem_of keys2 h resources k Hkeys2) in Hin.
          rewrite Hq in Hin. by destruct Hin.
        * intros Hin. apply (range_order_elem_of keys1 h resources k Hkeys1) in Hin.
          rewrite Hq in Hin. by destruct Hin. }
  unfold subtractFromNUMAs in *.
  destruct (range_resources keys1 resources zs nodes h) as [b1 h1].
  destruct (range_resources keys2 resources zs nodes h) as [b2 h2].
  simpl in *. by subst.
Qed.

Lemma subtract_request_order_witness :
  subtractFromNUMAs [cpu; memory] 0%nat zones2 [0; 1] heap_pod =
  subtractFromNUMAs [memory; cpu] 0%nat zones2 [0; 1] heap_pod.
Proof.
  apply (subtract_request_order [cpu; memory] [memory; cpu] 0%nat zones2 [0; 1] heap_pod).
  - decide_condition.
  - decide_condition.
  - decide_condition.
Defined.

(** ** Requests that are not negative *)

(** With a remaining request that is not negative, every write of the scan
    puts zero, or a positive amount below the one that was there. *)
Lemma range_nodes_inv_nonneg (P : heap → Prop) k zs nodes :
  (∀ h z node a v,
      node ∈ nodes → index zs node = Some z →
      entry h (Resources z) k = Some a → v = 0 ∨ 0 < v < a →
      P h → P (store h (Resources z) k v)) →
  ∀ q h, 0 ≤ q → P h → P (range_nodes k zs nodes q h).2.
Proof.
  induction nodes as [|node rest IH]; intros Hstep q h Hq HP; [done|].
  rewrite range_nodes_cons.
  assert (Hrest : ∀ q' h', 0 ≤ q' → P h' → P (range_nodes k zs rest q' h').2).
  { apply IH. intros h0 z nd a v Hnd. apply Hstep. by right. }
  destruct (decide (q = 0)); [done|].
  destruct (index zs node) as [z|] eqn:Hi; [|done].
  destruct (entry h (Resources z) k) as [a|] eqn:He; [|by apply Hrest].
  destruct (decide (a ≤ q)); apply Hrest; try lia.
  - apply (Hstep h z node a); [by left | done | done | by left | done].
  - apply (Hstep h z node a); [by left | done | done | right; lia | done].
Qed.

Lemma index_elem_of zs node z : index zs node = Some z → z ∈ zs.
Proof. intros Hi. apply index_Some in Hi as [_ Hz]. by apply list_elem_of_lookup_2 in Hz. Qed.

Lemma nonneg_zones_entry h zs z k a :
  nonneg_zones h zs → z ∈ zs → entry h (Resources z) k = Some a → 0 ≤ a.
Proof.
  intros Hzones Hz He. unfold nonneg_zones in Hzones. rewrite Forall_forall in Hzones.
  by apply (nonneg_map_entry h (Resources z) k a (Hzones z Hz)).
Qed.

Lemma nonneg_zones_store h zs r k v :
  0 ≤ v → nonneg_zones h zs → nonneg_zones (store h r k v) zs.
Proof.
  intros Hv Hz. unfold nonneg_zones in *.
  eapply Forall_impl; [exact Hz|]. intros z' Hz'. by apply nonneg_map_store.
Qed.

(** A call keeps the amounts non-negative and adds to none of them. *)
Lemma range_resources_never_adds resources zs nodes h0 keys : ∀ h,
  nonneg_map h resources → nonneg_zones h zs →
  (∀ r k a', entry h r k = Some a' → ∃ a, entry h0 r k = Some a ∧ a' ≤ a) →
  ∀ r k a', entry (range_resources keys resources zs nodes h).2 r k = Some a' →
            ∃ a, entry h0 r k = Some a ∧ a' ≤ a.
Proof.
  induction keys as [|k0 later IH]; intros h Hreq Hzones Hle; [done|].
  simpl.
  destruct (entry h resources k0) as [q0|] eqn:Hq0; [|by apply IH].
  pose (P := λ h' : heap,
    nonneg_map h' resources ∧ nonneg_zones h' zs ∧
    ∀ r k a', entry h' r k = Some a' → ∃ a, entry h0 r k = Some a ∧ a' ≤ a).
  assert (HP : P (range_nodes k0 zs nodes q0 h).2).
  { apply (range_nodes_inv_nonneg P k0 zs nodes).
    - intros h' z node a v _ Hi He Hv (Hreq' & Hzones' & Hle').
      assert (0 ≤ a).
      { apply (nonneg_zones_entry h' zs z k0 a); [done | | done].
        by apply (index_elem_of zs node). }
      split; [apply nonneg_map_store; [lia | done]|].
      split; [apply nonneg_zones_store; [lia | done]|].
      intros r k a'. rewrite entry_store.
      destruct (decide (Resources z = r ∧ k0 = k)) as [[<- <-]|_]; [|apply Hle'].
      intros [= <-]. destruct (Hle' (Resources z) k0 a He) as (a0 & Ha0 & Hle0).
      exists a0. split; [done | lia].
    - by apply (nonneg_map_entry h resources k0).
    - done. }
  destruct HP as (Hreq1 & Hzones1 & Hle1).
  destruct (range_nodes k0 zs nodes q0 h) as [[q'|] h1]; simpl in *.
  + by apply IH.
  + done.
Qed.

(** X6.  When neither the request nor the zones hold a negative amount, a
    call adds to no amount anywhere: every entry there is after the call was
    there before, with an amount at least as large.  This holds at a panic
    too. *)
Theorem subtract_never_adds keys resources zs nodes h :
  nonneg_map h resources → nonneg_zones h zs →
  ∀ r k a',
    entry (subtractFromNUMAs keys resources zs nodes h).2 r k = Some a' →
    ∃ a, entry h r k = Some a ∧ a' ≤ a.
Proof.
  intros Hreq Hzones. unfold subtractFromNUMAs.
  apply (range_resources_never_adds resources zs nodes h keys h); [done | done |].
  intros r k a' He. exists a'. split; [done | lia].
Qed.

Lemma subtract_never_adds_witness :
  ∃ a, entry heap_pod 2%nat cpu = Some a ∧ 2 ≤ a.
Proof.
  apply (subtract_never_adds [cpu; memory] 0%nat zones2 [0; 1] heap_pod).
  - decide_condition.
  - decide_condition.
  - vm_compute. reflexivity.
Defined.

(** ** One scan after another *)

Lemma store_same h r k v : entry h r k = Some v → store h r k v = h.
Proof.
  unfold entry, store, load. intros He.
  destruct (h !! r) as [m|] eqn:Hr; simpl in *.
  - rewrite (insert_id m k v) by done. by apply insert_id.
  - by rewrite lookup_empty in He.
Qed.

Lemma store_store h r k v w : store (store h r k v) r k w = store h r k w.
Proof.
  unfold store at 1. rewrite load_store, decide_True by done.
  unfold store. by rewrite insert_insert_eq, insert_insert_eq.
Qed.

(** A drained entry stays drained while the request is not negative. *)
Lemma range_nodes_keeps_zero k zs nodes q h r :
  0 ≤ q → entry h r k = Some 0 → entry (range_nodes k zs nodes q h).2 r k = Some 0.
Proof.
  intros Hq He.
  apply (range_nodes_inv_nonneg (λ h', entry h' r k = Some 0)); [|done|done].
  intros h' z node a v _ _ Ha Hv Hr. rewrite entry_store.
  destruct (decide (Resources z = r ∧ k = k)) as [[<- _]|_]; [|done].
  rewrite Hr in Ha. injection Ha as <-. f_equal. lia.
Qed.

(** The scan neither adds nor removes a name. *)
Lemma range_nodes_names k zs nodes q h r k' :
  is_Some (entry (range_nodes k zs nodes q h).2 r k') ↔ is_Some (entry h r k').
Proof.
  apply (range_nodes_inv (λ h', is_Some (entry h' r k') ↔ is_Some (entry h r k')));
    [|done].
  intros h0 z node a v _ _ He _ <-. by apply (is_Some_entry_store h0 _ _ a).
Qed.

(** X7.  Two scans one after the other, for amounts that are not negative,
    over the same order list of valid ids and zones that hold no negative
    amount, leave the heap that a single scan for the sum of the two amounts
    leaves, and their remainders add up to the remainder of that single
    scan. *)
Theorem range_nodes_twice k zs nodes q1 q2 h :
  valid_order zs nodes → 0 ≤ q1 → 0 ≤ q2 → nonneg_zones h zs →
  ∃ r1 h1 r2 h2,
    range_nodes k zs nodes q1 h = (Some r1, h1) ∧
    range_nodes k zs nodes q2 h1 = (Some r2, h2) ∧
    range_nodes k zs nodes (q1 + q2) h = (Some (r1 + r2), h2).
Proof.
  revert q1 q2 h.
  induction nodes as [|node rest IH]; intros q1 q2 h Hvalid Hq1 Hq2 Hzones.
  { by exists q1, h, q2, h. }
  assert (Htotal : ∀ q h0, ∃ r h', range_nodes k zs (node :: rest) q h0 = (Some r, h')).
  { intros q h0. destruct (range_nodes_total k zs (node :: rest) q h0 Hvalid) as [r Hr].
    destruct (range_nodes k zs (node :: rest) q h0) as [o h']. simpl in Hr. subst o.
    by exists r, h'. }
  destruct (decide (q1 = 0)) as [->|Hq1'].
  { destruct (Htotal q2 h) as (r2 & h2 & Hrun).
    exists 0, h, r2, h2. rewrite range_nodes_zero, Z.add_0_l. by rewrite Hrun. }
  destruct (decide (q2 = 0)) as [->|Hq2'].
  { destruct (Htotal q1 h) as (r1 & h1 & Hrun).
    exists r1, h1, 0, h1. rewrite range_nodes_zero, !Z.add_0_r. by rewrite Hrun. }
  apply Forall_cons in Hvalid as [Hnode Hvalid].
  assert (Hrest : ∀ q h0, ∃ r h', range_nodes k zs rest q h0 = (Some r, h')).
  { intros q h0. destruct (range_nodes_total k zs rest q h0 Hvalid) as [r Hr].
    destruct (range_nodes k zs rest q h0) as [o h']. simpl in Hr. subst o.
    by exists r, h'. }
  destruct (index zs node) as [z|] eqn:Hi; [|apply index_None in Hi; tauto].
  destruct (entry h (Resources z) k) as [a|] eqn:He.
  - assert (Ha : 0 ≤ a).
    { apply (nonneg_zones_entry h zs z k a); [done | by apply (index_elem_of zs node) | done]. }
    destruct (decide (a ≤ q1)) as [Hle|Hgt].
    + destruct (IH (q1 - a) q2 (store h (Resources z) k 0))
        as (r1 & h1 & r2 & h2 & Hrun1 & Hrun2 & Hrun12);
        [done | lia | lia | by apply nonneg_zones_store|].
      exists r1, h1, r2, h2.
      assert (Hz : entry h1 (Resources z) k = Some 0).
      { replace h1 with (range_nodes k zs rest (q1 - a) (store h (Resources z) k 0)).2
          by (by rewrite Hrun1).
        apply range_nodes_keeps_zero; [lia | apply entry_store_eq]. }
      split; [|split].
      * by rewrite range_nodes_cons, decide_False, Hi, He, decide_True.
      * rewrite range_nodes_cons, decide_False, Hi, Hz, decide_True by (done || lia).
        by rewrite Z.sub_0_r, (store_same h1 (Resources z) k 0 Hz).
      * rewrite range_nodes_cons, decide_False, Hi, He, decide_True by (done || lia).
        by replace (q1 + q2 - a) with (q1 - a + q2) by lia.
    + exists 0, (store h (Resources z) k (a - q1)).
      destruct (decide (a - q1 ≤ q2)) as [Hle2|Hgt2].
      * destruct (Hrest (q2 - (a - q1)) (store h (Resources z) k 0)) as (r2 & h2 & Hrun).
        exists r2, h2. split; [|split].
        -- rewrite range_nodes_cons, decide_False, Hi, He, decide_False by (done || lia).
           apply range_nodes_zero.
        -- rewrite range_nodes_cons, decide_False, Hi, entry_store_eq, decide_True
             by (done || lia).
           by rewrite store_store.
        -- rewrite range_nodes_cons, decide_False, Hi, He, decide_True by (done || lia).
           rewrite Z.add_0_l. by replace (q1 + q2 - a) with (q2 - (a - q1)) by lia.
      * exists 0, (store h (Resources z) k (a - q1 - q2)). split; [|split].
        -- rewrite range_nodes_cons, decide_False, Hi, He, decide_False by (done || lia).
           apply range_nodes_zero.
        -- rewrite range_nodes_cons, decide_False, Hi, entry_store_eq, decide_False
             by (done || lia).
           by rewrite store_store, range_nodes_zero.
        -- rewrite range_nodes_cons, decide_False, Hi, He, decide_False by (done || lia).
           rewrite range_nodes_zero.
           by replace (a - (q1 + q2)) with (a - q1 - q2) by lia.
  - destruct (IH q1 q2 h) as (r1 & h1 & r2 & h2 & Hrun1 & Hrun2 & Hrun12); try done.
    exists r1, h1, r2, h2.
    assert (Hz : entry h1 (Resources z) k = None).
    { pose proof (range_nodes_names k zs rest q1 h (Resources z) k) as Hn.
      rewrite Hrun1, He in Hn. simpl in Hn.
      destruct (entry h1 (Resources z) k); [|done].
      destruct Hn as [Hn _]. by destruct Hn. }
    split; [|split].
    + by rewrite range_nodes_cons, decide_False, Hi, He.
    + by rewrite range_nodes_cons, decide_False, Hi, Hz.
    + by rewrite range_nodes_cons, decide_False, Hi, He by (done || lia).
Qed.

Lemma range_nodes_twice_witness :
  ∃ r1 h1 r2 h2,
    range_nodes cpu zones2 [0; 1] 2 heap_pod = (Some r1, h1) ∧
    range_nodes cpu zones2 [0; 1] 7 h1 = (Some r2, h2) ∧
    range_nodes cpu zones2 [0; 1] (2 + 7) heap_pod = (Some (r1 + r2), h2).
Proof.
  apply (range_nodes_twice cpu zones2 [0; 1] 2 7 heap_pod).
  - decide_condition.
  - lia.
  - lia.
  - decide_condition.
Defined.

(** * Further properties of the constructor *)

(** X8.  The weight map of resources listed in two stretches is the map of
    the later stretch laid over the map of the earlier one: where both have a
    name the later weight stands.  The names of the map are exactly the
    names listed, and the map has at most as many entries as there are
    resources listed. *)
Theorem fillWeights_app resources1 resources2 :
  fillWeights (resources1 ++ resources2) =
    fillWeights resources2 ∪ fillWeights resources1 ∧
  dom (fillWeights (resources1 ++ resources2)) =
    dom (fillWeights resources1) ∪ dom (fillWeights resources2) ∧
  (∀ name, name ∈ dom (fillWeights resources1) ↔
           name ∈ apiconfig.Name <$> resources1) ∧
  (size (fillWeights resources1) ≤ length resources1)%nat.
Proof.
  assert (Happ : ∀ l1 l2, fillWeights (l1 ++ l2) = fillWeights l2 ∪ fillWeights l1).
  { intros l1 l2. induction l2 as [|r l2 IH] using rev_ind.
    - rewrite app_nil_r. unfold fillWeights at 2. simpl. by rewrite (left_id ∅ (∪)).
    - rewrite app_assoc, !fillWeights_snoc, IH. by rewrite insert_union_l. }
  split; [apply Happ|]. split; [|split].
  - rewrite Happ, dom_union_L. apply (comm_L (∪)).
  - intros name. rewrite elem_of_dom, list_elem_of_fmap. split.
    + intros [w Hw]. destruct (fillWeights_lookup_Some resources1 name w Hw)
        as (r & Hin & Hname & _).
      by exists r.
    + intros (r & -> & Hin). by apply fillWeights_lookup_listed.
  - induction resources1 as [|r l IH] using rev_ind; [done|].
    rewrite fillWeights_snoc, length_app. simpl.
    destruct (fillWeights l !! apiconfig.Name r) as [w|] eqn:Hl.
    + rewrite map_size_insert_Some by done. lia.
    + rewrite map_size_insert_None by done. lia.
Qed.

(** X9.  What decides the outcome of [New].  It returns a plugin exactly
    when the arguments are a non-nil [NodeResourceTopologyMatchArgs], the
    informer comes up, and the strategy type is [LeastNUMANodes] or has a
    strategy function.  It panics exactly when the arguments are the nil
    pointer of that type and the informer comes up all the same.  In every
    other case it returns an error. *)
Theorem New_outcome `{Collaborators} args handle :
  ((∃ tm, New args handle = Returns (Some tm, None)) ↔
   ∃ cfg cache,
     args = MatchArgs (Some cfg) ∧
     initNodeTopologyInformer (Some cfg) handle = (cache, None) ∧
     (apiconfig.Type_ (apiconfig.ScoringStrategy_ cfg) = apiconfig.LeastNUMANodes ∨
      ∃ fn,
        getScoringStrategyFunction (apiconfig.Type_ (apiconfig.ScoringStrategy_ cfg))
          = (fn, None))) ∧
  (New args handle = Panics ↔
   ∃ cache, args = MatchArgs None ∧ initNodeTopologyInformer None handle = (cache, None)) ∧
  ((∃ e, New args handle = Returns (None, Some e)) ∨
   (∃ tm, New args handle = Returns (Some tm, None)) ∨
   New args handle = Panics).
Proof.
  split; [|split].
  - split.
    + intros [tm Hnew].
      destruct (New_Some_inv args handle tm None Hnew)
        as (_ & cfg & Hargs & Hinit & _ & _ & Hscore).
      exists cfg, (nrtCache tm). repeat split; try done.
      destruct Hscore as [[Hleast _]|[_ (fn & Hget & _)]]; [by left | right; by exists fn].
    + intros (cfg & cache & -> & Hinit & Hstrategy). unfold New. rewrite Hinit.
      destruct (decide _) as [Hleast|Hother]; [by eexists|].
      destruct Hstrategy as [Hleast|[fn Hget]]; [done|].
      rewrite Hget. by eexists.
  - unfold New. split.
    + destruct args as [tcfg|typeName]; [|done].
      destruct (initNodeTopologyInformer tcfg handle) as [cache [e|]] eqn:Hinit; [done|].
      destruct tcfg as [cfg|]; [|intros _; by exists cache].
      destruct (decide _); [done|].
      by destruct (getScoringStrategyFunction _) as [fn [e|]].
    + intros (cache & -> & Hinit). by rewrite Hinit.
  - unfold New. destruct args as [tcfg|typeName]; [|left; by eexists].
    destruct (initNodeTopologyInformer tcfg handle) as [cache [e|]]; [left; by eexists|].
    destruct tcfg as [cfg|]; [|by right; right].
    destruct (decide _); [right; left; by eexists|].
    destruct (getScoringStrategyFunction _) as [fn [e|]];
      [left; by eexists | right; left; by eexists].
Qed.

(** * Scenarios *)

(** Two zones of {cpu: 4, memory: 8}, a request of {cpu: 6, memory: 4}, the
    order 0, 1: zone 0 gives all of its cpu and the memory, zone 1 gives the
    missing 2 cpu. *)
Example two_zone_scenario :
  let r := subtractFromNUMAs [cpu; memory] 0%nat zones2 [0; 1] heap_pod in
  r.1 = true ∧
  entry r.2 1%nat cpu = Some 0 ∧ entry r.2 1%nat memory = Some 4 ∧
  entry r.2 2%nat cpu = Some 2 ∧ entry r.2 2%nat memory = Some 8.
Proof. vm_compute. done. Qed.

(** The same with a single zone in the order: the request does not fit, the
    zone is drained of cpu and nothing is taken from the other zone. *)
Example single_zone_scenario :
  let r := subtractFromNUMAs [cpu; memory] 0%nat zones2 [1] heap_pod in
  r.1 = true ∧
  entry r.2 1%nat cpu = Some 4 ∧ entry r.2 2%nat cpu = Some 0 ∧
  range_nodes cpu zones2 [1] 6 heap_pod = (Some 2, store heap_pod 2%nat cpu 0).
Proof. vm_compute. done. Qed.

(** The iteration order of the request does not show in the result. *)
Example request_order_scenario :
  subtractFromNUMAs [cpu; memory] 0%nat zones2 [0; 1] heap_pod =
  subtractFromNUMAs [memory; cpu] 0%nat zones2 [0; 1] heap_pod.
Proof. vm_compute. done. Qed.

(** [New] on the test collaborators: the least-NUMA strategy, a weighted
    strategy, an unknown strategy, and a nil configuration. *)
Example New_scenarios :
  (∃ tm, @New testFramework testCollaborators argsLeastNUMA tt = Returns (Some tm, None)) ∧
  (∃ tm, @New testFramework testCollaborators argsMostAllocated tt = Returns (Some tm, None)) ∧
  @New testFramework testCollaborators argsUnknown tt =
    Returns (None, Some "illegal scoring strategy found") ∧
  @New testFramework testCollaborators (MatchArgs None) tt = Panics.
Proof. repeat split; try reflexivity; eexists; reflexivity. Qed.
